(** * Persisted per-identity rate limiter (package ratelimiter)

    A shallow embedding of the persisted rate limiter found in
    [src/smartcard/globalplatform/commands.go] (second document of the file,
    [package ratelimiter]): the [Config] type, [compare], [newBucket],
    [NewPersisted] and the methods of [PersistedRateLimiter].

    Conventions.
    - Go's [uint64] and [int64] values are integers of [Z]; every conversion
      the source performs is written out ([uint64], [int64]).
    - [[]byte] is [list Byte.byte]; a [nil] slice is the empty list.
    - [time.Now()] is an argument [now] of every method: the wall clock in
      nanoseconds since the Unix epoch, read once per call. Where the
      readings inside one call matter, the method is given again with one
      argument per reading ([TakeAvailable_clocked]).
    - The receiver [r *PersistedRateLimiter] is threaded explicitly; bucket
      pointers are locations of a heap of bucket objects, [nil] is [None].
    - A Go [panic] is an outcome of its own, distinct from a returned
      [error].
    - The mutex [mu] only serialises concurrent callers; the embedding is the
      sequential behaviour of each method. *)

From Stdlib Require Import ZArith Lia List.
From Stdlib Require Import Floats.SpecFloat.
From Stdlib Require Strings.Byte.
From stdpp Require Import base option list countable gmap.

Local Open Scope Z_scope.

(** ** Machine integers *)

Definition uint64 (z : Z) : Z := z mod 2 ^ 64.

Definition int64 (z : Z) : Z := (z + 2 ^ 63) mod 2 ^ 64 - 2 ^ 63.

(** ** Byte slices and [encoding/binary] big-endian words *)

Abbreviation byte := Byte.byte.
Abbreviation bytes := (list Byte.byte).

#[global] Instance byte_eq_dec : EqDecision byte := Byte.byte_eq_dec.

Definition byte_of_N (n : N) : byte := default Byte.x00 (Byte.of_N n).

#[global] Instance byte_countable : Countable byte :=
  inj_countable' Byte.to_N byte_of_N
    (fun b => f_equal (default Byte.x00) (Byte.of_to_N b)).

Definition byte_of_Z (z : Z) : byte := byte_of_N (Z.to_N (z mod 256)).

Definition Z_of_byte (b : byte) : Z := Z.of_N (Byte.to_N b).

(** [n] big-endian bytes of [v], most significant first. *)
Fixpoint be_encode (n : nat) (v : Z) : bytes :=
  match n with
  | O => []
  | S k => be_encode k (v / 256) ++ [byte_of_Z v]
  end.

Definition be_decode (b : bytes) : Z :=
  fold_left (fun acc x => acc * 256 + Z_of_byte x) b 0.

(** [binary.BigEndian.PutUint64(buf, v)] on an 8-byte buffer. *)
Definition PutUint64 (v : Z) : bytes := be_encode 8 v.

(** [binary.BigEndian.Uint64(b)]: reads [b[0..7]]; a slice shorter than 8
    bytes makes the bounds check [_ = b[7]] panic ([None]). *)
Definition Uint64 (b : bytes) : option Z :=
  if (length b <? 8)%nat then None else Some (be_decode (take 8 b)).

(** ** Unix time *)

(** [t.Unix()]: whole seconds since the epoch of a time in nanoseconds. *)
Definition Unix (t : Z) : Z := t / 1000000000.

(** ** float64 ([compare] and [Bucket.Rate] compute in binary64) *)

Definition float64 (z : Z) : spec_float := binary_normalize 53 1024 z 0 false.

(** [1e9 * float64(quantum) / float64(interval)] *)
Definition rate64 (quantum interval : Z) : spec_float :=
  SFdiv 53 1024 (SFmul 53 1024 (float64 1000000000) (float64 quantum))
        (float64 interval).

(** ** Config *)

Record Config := mkConfig {
  Interval : Z;
  Capacity : Z;
  Quantum : Z
}.

(** [newBucket] hands [int64(c.Capacity)], [int64(c.Quantum)] and
    [time.Duration(c.Interval)] to the bucket constructor, which refuses
    (panics on) a value that is not positive. *)
Definition valid_config (c : Config) : bool :=
  (0 <? int64 (Interval c)) && (0 <? int64 (Capacity c)) && (0 <? int64 (Quantum c)).

(** ** Token bucket *)

(** Modelled from the spec: the token bucket type [ratelimit.Bucket] of the
    imported package github.com/juju/ratelimit, which is not under src/.
    Section 4.1 of the specification: a bucket is born with
    [available = capacity]; every read or debit first applies the refill
    [available = min(capacity, available + elapsed * rate)], here counted in
    whole fill intervals ([quantum] tokens per [fillInterval] nanoseconds);
    [takeAvailable] then debits [min(n, available)] and returns the amount
    debited. *)
Record Bucket := mkBucket {
  startTime : Z;
  capacity : Z;
  quantum : Z;
  fillInterval : Z;
  availableTokens : Z;
  latestTick : Z
}.

(** Modelled from the spec: the constructor [ratelimit.NewBucketWithQuantum]
    (package not under src/); the invariant [capacity > 0] of section 3 is
    enforced at construction, [None] stands for the constructor's panic. *)
Definition NewBucketWithQuantum (now fillInterval capacity quantum : Z) : option Bucket :=
  if (0 <? fillInterval) && (0 <? capacity) && (0 <? quantum)
  then Some (mkBucket now capacity quantum fillInterval capacity 0)
  else None.

(** Number of whole fill intervals elapsed since the bucket was created. *)
Definition currentTick (tb : Bucket) (now : Z) : Z :=
  Z.quot (now - startTime tb) (fillInterval tb).

(** Modelled from the spec: the refill step shared by [Available] and
    [TakeAvailable] of [ratelimit.Bucket] (package not under src/). *)
Definition adjustAvailableTokens (tb : Bucket) (now : Z) : Bucket :=
  let tick := currentTick tb now in
  let avail :=
    if capacity tb <=? availableTokens tb then availableTokens tb
    else Z.min (capacity tb)
               (availableTokens tb + (tick - latestTick tb) * quantum tb) in
  mkBucket (startTime tb) (capacity tb) (quantum tb) (fillInterval tb) avail tick.

(** Modelled from the spec: [Bucket.TakeAvailable] (package not under src/):
    refill, then debit [min(count, available)]; nothing is taken for a count
    that is not positive. *)
Definition bucket_TakeAvailable (tb : Bucket) (count now : Z) : Z * Bucket :=
  if count <=? 0 then (0, tb)
  else
    let tb' := adjustAvailableTokens tb now in
    if availableTokens tb' <=? 0 then (0, tb')
    else
      let taken := Z.min count (availableTokens tb') in
      (taken,
       mkBucket (startTime tb') (capacity tb') (quantum tb') (fillInterval tb')
                (availableTokens tb' - taken) (latestTick tb')).

(** Modelled from the spec: [Bucket.Available] (package not under src/):
    the tokens available after the refill, without debiting. *)
Definition bucket_Available (tb : Bucket) (now : Z) : Z * Bucket :=
  let tb' := adjustAvailableTokens tb now in (availableTokens tb', tb').

(** Modelled from the spec: [Bucket.Rate] (package not under src/): the
    refill rate in tokens per second, as a float64. *)
Definition bucket_Rate (tb : Bucket) : spec_float :=
  rate64 (quantum tb) (fillInterval tb).

(** Data-model invariant of a live bucket observed at clock reading [now]:
    [0 <= available <= capacity], int64 range, and a clock that has not gone
    backwards since the bucket last looked at it. *)
Definition bucket_ok (tb : Bucket) (now : Z) : Prop :=
  0 <= availableTokens tb <= capacity tb /\ capacity tb < 2 ^ 63 /\
  0 <= quantum tb /\ latestTick tb <= currentTick tb now.

(** ** The key-value store *)

(** Record kinds of package [db] used by the limiter. *)
Inductive storagePrefix := RateLimitBlacklist | RateLimitConfig | RateLimitCapacity.

(** [err] values of the store: the sentinel [leveldb.ErrNotFound] and any
    other (I/O) failure. A [nil] error is [None]. *)
Inductive dberror := ErrNotFound | ErrIO.

#[global] Instance dberror_eq_dec : EqDecision dberror.
Proof. solve_decision. Defined.

Inductive dbop := OpGet | OpPut | OpDelete.

(** The store handle [*leveldb.DB]: its contents, and which operations on
    which keys currently fail with an I/O error. *)
Record DB := mkDB {
  data : gmap bytes bytes;
  faulty : dbop -> bytes -> bool
}.

(** [db.Get(key, nil)]: [(value, nil)], [(nil, ErrNotFound)] for a missing
    key, [(nil, err)] on failure. *)
Definition db_Get (d : DB) (key : bytes) : bytes * option dberror :=
  if faulty d OpGet key then ([], Some ErrIO)
  else match data d !! key with
       | Some v => (v, None)
       | None => ([], Some ErrNotFound)
       end.

(** [db.Put(key, value, nil)] *)
Definition db_Put (d : DB) (key value : bytes) : DB * option dberror :=
  if faulty d OpPut key then (d, Some ErrIO)
  else (mkDB (<[key := value]> (data d)) (faulty d), None).

(** [db.Delete(key, nil)]: deleting a missing key is not an error. *)
Definition db_Delete (d : DB) (key : bytes) : DB * option dberror :=
  if faulty d OpDelete key then (d, Some ErrIO)
  else (mkDB (delete key (data d)) (faulty d), None).

(** ** Errors, log records, panics *)

(** The [error] values the limiter builds with [fmt.Errorf], one constructor
    per format string. *)
Inductive error :=
| ErrBlacklisted (id : bytes)
    (* "identity %x is blacklisted" *)
| ErrReadKey (fkey : bytes) (e : dberror)
    (* "failed to read key %x from database: %v" *)
| ErrDecodeConfig (val : bytes)
    (* "failed to decode bytes %x into Config object: %v" *)
| ErrBlacklisting (id : bytes) (e : dberror)
    (* "error blacklisting %x: %v" *)
| ErrWriteCapacity (cap : Z) (id : bytes) (e : dberror).
    (* "failed to write current capacicity %d for id %x: %v" *)

(** Error taxonomy of section 7 of the specification. *)
Inductive errorKind := BlacklistedError | PersistenceError | DecodeError.

Definition kind_of (e : error) : errorKind :=
  match e with
  | ErrBlacklisted _ => BlacklistedError
  | ErrReadKey _ _ | ErrBlacklisting _ _ | ErrWriteCapacity _ _ _ => PersistenceError
  | ErrDecodeConfig _ => DecodeError
  end.

Inductive logRecord :=
| LogUnexpectedLength (expected stored : Z)
    (* log.Error("stored value is of unexpected length", "expected", _, "stored", _) *)
| LogError (e : error).
    (* log.Error(err.Error()) *)

Inductive panic :=
| NilDereference      (* a method reads a field through a nil *Bucket *)
| IndexOutOfRange     (* slice bounds check *)
| BucketConstructor   (* NewBucketWithQuantum on a non-positive argument *)
| InvalidPointer.     (* a location outside the heap; Go cannot produce one *)

(** ** The limiter *)

Abbreviation loc := nat.

Record PersistedRateLimiter := mkLimiter {
  db : DB;
  prefix : bytes;
  defaultConfig : Config;
  initialized : gmap bytes loc;   (* map[string]*ratelimit.Bucket *)
  heap : list Bucket;             (* the bucket objects allocated so far *)
  logged : list logRecord         (* what log.Error has written *)
}.

Definition set_db (d : DB) (r : PersistedRateLimiter) : PersistedRateLimiter :=
  mkLimiter d (prefix r) (defaultConfig r) (initialized r) (heap r) (logged r).

Definition set_initialized (m : gmap bytes loc) (r : PersistedRateLimiter) :=
  mkLimiter (db r) (prefix r) (defaultConfig r) m (heap r) (logged r).

Definition set_heap (h : list Bucket) (r : PersistedRateLimiter) :=
  mkLimiter (db r) (prefix r) (defaultConfig r) (initialized r) h (logged r).

Definition log_Error (x : logRecord) (r : PersistedRateLimiter) :=
  mkLimiter (db r) (prefix r) (defaultConfig r) (initialized r) (heap r)
            (logged r ++ [x]).

(** Outcome of a method call: it returns a value and leaves the limiter in a
    new state, or it panics. *)
Inductive outcome (A : Type) :=
| Returns (a : A) (r : PersistedRateLimiter)
| Panics (p : panic).
Arguments Returns {A} a r.
Arguments Panics {A} p.

Definition M (A : Type) : Type := PersistedRateLimiter -> outcome A.

Definition ret {A} (a : A) : M A := fun r => Returns a r.

Definition bind {A B} (m : M A) (k : A -> M B) : M B :=
  fun r => match m r with
           | Returns a r' => k a r'
           | Panics p => Panics p
           end.

Notation "'let*' x := m 'in' k" := (bind m (fun x => k))
  (at level 10, x pattern, m at level 100, k at level 200).

Definition raise {A} (p : panic) : M A := fun _ => Panics p.

Definition get_limiter : M PersistedRateLimiter := fun r => Returns r r.

Definition Get (key : bytes) : M (bytes * option dberror) :=
  fun r => Returns (db_Get (db r) key) r.

Definition Put (key value : bytes) : M (option dberror) :=
  fun r => let '(d, e) := db_Put (db r) key value in Returns e (set_db d r).

Definition Delete (key : bytes) : M (option dberror) :=
  fun r => let '(d, e) := db_Delete (db r) key in Returns e (set_db d r).

Definition log (x : logRecord) : M unit := fun r => Returns tt (log_Error x r).

(** Calls a method of [ratelimit.Bucket] through a pointer: the method's
    effect on the object is written back to the heap. *)
Definition call {A} (bucket : option loc) (method : Bucket -> A * Bucket) : M A :=
  fun r => match bucket with
           | None => Panics NilDereference
           | Some l =>
               match heap r !! l with
               | None => Panics InvalidPointer
               | Some tb =>
                   let '(a, tb') := method tb in
                   Returns a (set_heap (<[l := tb']> (heap r)) r)
               end
           end.

(** Calls a getter of [ratelimit.Bucket] ([Capacity], [Rate]) through a
    pointer: the object is only read. *)
Definition read {A} (bucket : option loc) (getter : Bucket -> A) : M A :=
  fun r => match bucket with
           | None => Panics NilDereference
           | Some l =>
               match heap r !! l with
               | None => Panics InvalidPointer
               | Some tb => Returns (getter tb) r
               end
           end.

(** What the limiter takes from packages that are not under src/, kept
    abstract: [kind_tag] is the one-byte tag package [db] gives each record
    kind; [rlp_DecodeBytes] is [rlp.DecodeBytes(val, &cfg)] of go-ethereum
    for a [Config], the decoded value or [None] when decoding fails. *)
Class Imports := {
  kind_tag : storagePrefix -> byte;
  rlp_DecodeBytes : bytes -> option Config
}.

Section Limiter.

Context `{imports : !Imports}.

(** Modelled from the spec: [db.Key] of package [db], which is not under
    src/. Section 6: [key(kind, prefix, identity) = kind_tag || prefix ||
    identity]. *)
Definition Key (kind : storagePrefix) (prefix id : bytes) : bytes :=
  kind_tag kind :: prefix ++ id.

(** compare config with existing ratelimited bucket. *)
Definition compare (c : Config) (bucket : option loc) : M bool :=
  let* cap := read bucket capacity in
  if int64 (Capacity c) =? cap then
    let* rate := read bucket bucket_Rate in
    ret (SFeqb (rate64 (Quantum c) (Interval c)) rate)
  else ret false.

Definition newBucket (c : Config) (now : Z) : option Bucket :=
  NewBucketWithQuantum now (int64 (Interval c)) (int64 (Capacity c)) (int64 (Quantum c)).

Definition NewPersisted (d : DB) (config : Config) (prefix : bytes) : PersistedRateLimiter :=
  mkLimiter d prefix config ∅ [] [].

Definition blacklist (id : bytes) (duration now : Z) : M (option error) :=
  let* r := get_limiter in
  let fkey := Key RateLimitBlacklist (prefix r) id in
  let buf := PutUint64 (uint64 (Unix (now + duration))) in
  let* err := Put fkey buf in
  match err with
  | Some e => ret (Some (ErrBlacklisting id e))
  | None => ret None
  end.

Definition getOrCreate (id : bytes) (config : Config) (now : Z) : M loc :=
  fun r =>
    match initialized r !! id with
    | None =>
        match newBucket config now with
        | None => Panics BucketConstructor
        | Some tb =>
            let l := length (heap r) in
            Returns l (set_initialized (<[id := l]> (initialized r))
                         (set_heap (heap r ++ [tb]) r))
        end
    | Some old => Returns old r
    end.

(** [Create], first block (source lines 179-187): the blacklist check. *)
Definition Create_checkBlacklist (id : bytes) (now : Z) : M (option error) :=
  let* r := get_limiter in
  let fkey := Key RateLimitBlacklist (prefix r) id in
  let* (val, err) := Get fkey in
  if decide (err ≠ Some ErrNotFound) then
    match Uint64 val with
    | None => raise IndexOutOfRange
    | Some deadline =>
        if uint64 (Unix now) <=? deadline then ret (Some (ErrBlacklisted id))
        else let* _ := Delete fkey in ret None
    end
  else ret None.

(** [Create], second block (source lines 188-199): the effective config. *)
Definition Create_loadConfig (id : bytes) : M (error + Config) :=
  let* r := get_limiter in
  let fkey := Key RateLimitConfig (prefix r) id in
  let* (val, err) := Get fkey in
  match err with
  | Some ErrNotFound => ret (inr (defaultConfig r))
  | Some e => ret (inl (ErrReadKey fkey e))
  | None =>
      match rlp_DecodeBytes val with
      | None => ret (inl (ErrDecodeConfig val))
      | Some cfg => ret (inr cfg)
      end
  end.

(** [Create], third block (source lines 201-212): replay of the stored
    capacity snapshot on [bucket]. *)
Definition Create_loadCapacity (id : bytes) (bucket : loc) (now : Z) : M (option error) :=
  let* r := get_limiter in
  let fkey := Key RateLimitCapacity (prefix r) id in
  let* (val, err) := Get fkey in
  if decide (err = Some ErrNotFound) then ret None
  else if decide (length val ≠ 16%nat) then
    let* _ := log (LogUnexpectedLength 8 (Z.of_nat (length val))) in
    ret None
  else
    match Uint64 (take 8 val) with
    | None => raise IndexOutOfRange
    | Some consumed =>
        let* _ := call (Some bucket) (fun tb => bucket_TakeAvailable tb (int64 consumed) now) in
        ret None
    end.

Definition Create (id : bytes) (now : Z) : M (option error) :=
  let* banned := Create_checkBlacklist id now in
  match banned with
  | Some e => ret (Some e)
  | None =>
      let* loaded := Create_loadConfig id in
      match loaded with
      | inl e => ret (Some e)
      | inr cfg =>
          let* bucket := getOrCreate id cfg now in
          Create_loadCapacity id bucket now
      end
  end.

Definition store (id : bytes) (bucket : option loc) (now : Z) : M (option error) :=
  let* cap := read bucket capacity in
  let* avail := call bucket (fun tb => bucket_Available tb now) in
  let buf := PutUint64 (uint64 (int64 (cap - avail))) ++ PutUint64 (uint64 (Unix now)) in
  let* r := get_limiter in
  let* err := Put (Key RateLimitCapacity (prefix r) id) buf in
  match err with
  | Some e =>
      let* cap := read bucket capacity in
      ret (Some (ErrWriteCapacity cap id e))
  | None => ret None
  end.

(** Remove removes key from memory but ensures that the latest information
    is persisted. *)
Definition Remove (id : bytes) (duration now : Z) : M (option error) :=
  let* err := (if decide (duration ≠ 0) then blacklist id duration now else ret None) in
  match err with
  | Some e => ret (Some e)
  | None =>
      let* r := get_limiter in
      let bucket := initialized r !! id in
      let* _ := (fun r => Returns tt (set_initialized (delete id (initialized r)) r)) in
      match bucket with
      | None => ret None
      | Some l => store id (Some l) now
      end
  end.

Definition TakeAvailable (id : bytes) (count now : Z) : M Z :=
  let* r := get_limiter in
  let* bucket := getOrCreate id (defaultConfig r) now in
  let* rst := call (Some bucket) (fun tb => bucket_TakeAvailable tb count now) in
  let* err := store id (Some bucket) now in
  let* _ := match err with
            | Some e => log (LogError e)
            | None => ret tt
            end in
  ret rst.

Definition Available (id : bytes) (now : Z) : M Z :=
  let* r := get_limiter in
  let* bucket := getOrCreate id (defaultConfig r) now in
  call (Some bucket) (fun tb => bucket_Available tb now).

Definition UpdateConfig (id : bytes) (config : Config) (now : Z) : M (option error) :=
  let* r := get_limiter in
  let old := initialized r !! id in
  let* same := compare config old in
  if same then ret None
  else
    let* _ := (fun r => Returns tt (set_initialized (delete id (initialized r)) r)) in
    let* taken :=
      match old with
      | None => ret 0
      | Some _ =>
          let* cap := read old capacity in
          let* avail := call old (fun tb => bucket_Available tb now) in
          ret (int64 (cap - avail))
      end in
    let* bucket := getOrCreate id config now in
    let* _ := call (Some bucket) (fun tb => bucket_TakeAvailable tb taken now) in
    ret None.


(** A run of [TakeAvailable(id, n_i)] calls, all at the clock reading [now];
    the amounts returned, in call order. *)
Fixpoint takeSeq (id : bytes) (now : Z) (ns : list Z) : M (list Z) :=
  match ns with
  | [] => ret []
  | n :: ns' =>
      let* taken := TakeAvailable id n now in
      let* rest := takeSeq id now ns' in
      ret (taken :: rest)
  end.

Definition total (l : list Z) : Z := foldr Z.add 0 l.

(** A bucket on which the refill at clock reading [now] has nothing to add. *)
Definition settled (tb : Bucket) (now : Z) : Prop :=
  latestTick tb = currentTick tb now /\ availableTokens tb <= capacity tb.

(** The state [getOrCreate] leaves behind for an unregistered identity. *)
Definition registered_with (id : bytes) (tb : Bucket) (r : PersistedRateLimiter) :=
  set_initialized (<[id := length (heap r)]> (initialized r))
                  (set_heap (heap r ++ [tb]) r).

(** The bucket [TakeAvailable] and [Available] operate on: the registered
    one, or the one [getOrCreate] makes from the default config. *)
Definition bucketFor (id : bytes) (now : Z) (r : PersistedRateLimiter) : option Bucket :=
  match initialized r !! id with
  | Some l => heap r !! l
  | None => newBucket (defaultConfig r) now
  end.

(** Section 4.1 [equivalent(config, bucket)]: the value [compare] computes
    once the bucket pointer has been followed. *)
Definition equivalent (c : Config) (tb : Bucket) : bool :=
  (int64 (Capacity c) =? capacity tb) &&
  SFeqb (rate64 (Quantum c) (Interval c)) (bucket_Rate tb).

(** Tokens consumed out of the capacity, as [store] and [UpdateConfig]
    compute it at clock reading [now]: [Capacity() - Available()]. *)
Definition consumed (tb : Bucket) (now : Z) : Z :=
  capacity tb - (bucket_Available tb now).1.

End Limiter.

(** ** The claims the code does not meet, as the specification states them *)

(** Section 8, "Blacklist window", as stated: after [Remove(id, D)] at
    time [T], [Create(id)] fails with the blacklist error at every time of
    [[T, T+D)] and succeeds, clearing the stale record, at every time from
    [T+D] on. *)
Definition blacklist_window_as_stated `{!Imports} (id : bytes) (D T : Z)
           (r : PersistedRateLimiter) : Prop :=
  forall r1, Remove id D T r = Returns None r1 ->
    (forall t, T <= t < T + D ->
       exists r2, Create id t r1 = Returns (Some (ErrBlacklisted id)) r2) /\
    (forall t, T + D <= t ->
       exists r2, Create id t r1 = Returns None r2 /\
                  data (db r2) !! Key RateLimitBlacklist (prefix r) id = None).

(** Section 8, "Reconfiguration continuity", as stated: a config that is
    not equivalent yields a new bucket with the same consumed amount; an
    equivalent one leaves everything as it was. *)
Definition reconfiguration_continuity_as_stated (id : bytes) (config : Config) (now : Z)
           (r : PersistedRateLimiter) : Prop :=
  forall l tb, initialized r !! id = Some l -> heap r !! l = Some tb ->
    (equivalent config tb = false ->
       exists r' l' tb',
         UpdateConfig id config now r = Returns None r' /\
         initialized r' !! id = Some l' /\ heap r' !! l' = Some tb' /\
         consumed tb' now = consumed tb now) /\
    (equivalent config tb = true -> UpdateConfig id config now r = Returns None r).

(** ** Concrete limiters *)

Definition ex_imports : Imports :=
  {| kind_tag := fun k => match k with
                          | RateLimitBlacklist => Byte.x01
                          | RateLimitConfig => Byte.x02
                          | RateLimitCapacity => Byte.x03
                          end;
     rlp_DecodeBytes := fun _ => None |}.

(** One token per second, ten tokens at most. *)
Definition ex_config : Config := mkConfig 1000000000 10 1.

(** Same rate, five tokens at most. *)
Definition ex_small : Config := mkConfig 1000000000 5 1.

Definition ex_prefix : bytes := [Byte.x70].

Definition alice : bytes := [Byte.x61; Byte.x6c; Byte.x69; Byte.x63; Byte.x65].

Definition bob : bytes := [Byte.x62; Byte.x6f; Byte.x62].

Definition second : Z := 1000000000.

(** An empty store on which every operation goes through. *)
Definition ex_db : DB := mkDB ∅ (fun _ _ => false).

Definition ex_limiter : PersistedRateLimiter := NewPersisted ex_db ex_config ex_prefix.

(** A store that refuses every write. *)
Definition ex_readonly : PersistedRateLimiter :=
  NewPersisted (mkDB ∅ (fun op _ => match op with OpPut => true | _ => false end))
               ex_config ex_prefix.

(** A store on which every read fails. *)
Definition ex_unreadable : PersistedRateLimiter :=
  NewPersisted (mkDB ∅ (fun op _ => match op with OpGet => true | _ => false end))
               ex_config ex_prefix.

(** A store on which only the read of alice's capacity snapshot fails. *)
Definition ex_capacity_unreadable : PersistedRateLimiter :=
  NewPersisted
    (mkDB ∅ (fun op k =>
               match op with
               | OpGet => bool_decide (k = @Key ex_imports RateLimitCapacity ex_prefix alice)
               | _ => false
               end))
    ex_config ex_prefix.

(** A store holding a three-byte capacity snapshot for alice. *)
Definition ex_malformed : PersistedRateLimiter :=
  NewPersisted
    (mkDB {[ @Key ex_imports RateLimitCapacity ex_prefix alice
               := [Byte.x01; Byte.x02; Byte.x03] ]}
          (fun _ _ => false))
    ex_config ex_prefix.

(** The limiter a call leaves behind ([r] itself when the call panics). *)
Definition after {A} (m : M A) (r : PersistedRateLimiter) : PersistedRateLimiter :=
  match m r with
  | Returns _ r' => r'
  | Panics _ => r
  end.

(** alice has taken 7 of her 10 tokens at second 5. *)
Definition ex_active : PersistedRateLimiter :=
  after (@TakeAvailable ex_imports alice 7 (5 * second)) ex_limiter.

(** bob was removed at second 1000 with a ban of 60 seconds. *)
Definition ex_banned : PersistedRateLimiter :=
  after (@Remove ex_imports bob (60 * second) (1000 * second)) ex_limiter.

(** ** Invariants of a running limiter *)

(** Section 3 invariant of one bucket, with the positive fill interval the
    constructor enforces. *)
Definition bucket_inv (tb : Bucket) (now : Z) : Prop :=
  bucket_ok tb now /\ 0 < fillInterval tb.

(** The registry only holds pointers to allocated buckets, and no two
    identities share a bucket object. *)
Definition registry_ok (r : PersistedRateLimiter) : Prop :=
  (forall id l, initialized r !! id = Some l -> (l < length (heap r))%nat) /\
  (forall id id' l,
      initialized r !! id = Some l -> initialized r !! id' = Some l -> id = id').

Definition limiter_ok (r : PersistedRateLimiter) (now : Z) : Prop :=
  registry_ok r /\ Forall (fun tb => bucket_inv tb now) (heap r).

(** From [r] to [r'] no identity other than [id] lost, gained or changed
    its bucket. *)
Definition others_untouched (id : bytes) (r r' : PersistedRateLimiter) : Prop :=
  forall id', id' <> id ->
    initialized r' !! id' = initialized r !! id' /\
    forall l, initialized r !! id' = Some l -> heap r' !! l = heap r !! l.

(** What a method call on identity [id] at clock reading [now] may do to a
    limiter in good order. *)
Definition good (id : bytes) (now : Z) (r r' : PersistedRateLimiter) : Prop :=
  limiter_ok r' now /\ others_untouched id r r' /\
  (length (heap r) <= length (heap r'))%nat.

(** Weakest precondition of a call: it returns in [Q], or panics in [E]. *)
Definition wp {A} (E : panic -> Prop) (m : M A)
           (Q : A -> PersistedRateLimiter -> Prop) (r : PersistedRateLimiter) : Prop :=
  match m r with
  | Returns a r' => Q a r'
  | Panics p => E p
  end.

(** No panic at all. *)
Definition never : panic -> Prop := fun _ => False.

(** No identity other than [id] points to the bucket object [l]. *)
Definition owned (id : bytes) (r : PersistedRateLimiter) (l : loc) : Prop :=
  forall id' l', id' <> id -> initialized r !! id' = Some l' -> l' <> l.

(** ** More concrete limiters *)

(** alice has taken 7 of her 10 tokens at second 5, on a store that
    refuses every write. *)
Definition ex_active_readonly : PersistedRateLimiter :=
  after (@TakeAvailable ex_imports alice 7 (5 * second)) ex_readonly.

(** A store holding a config record for alice that does not decode. *)
Definition ex_undecodable : PersistedRateLimiter :=
  NewPersisted
    (mkDB {[ @Key ex_imports RateLimitConfig ex_prefix alice := [Byte.x00] ]}
          (fun _ _ => false))
    ex_config ex_prefix.

(** A store holding a one-byte blacklist record for bob. *)
Definition ex_short_blacklist : PersistedRateLimiter :=
  NewPersisted
    (mkDB {[ @Key ex_imports RateLimitBlacklist ex_prefix bob := [Byte.x01] ]}
          (fun _ _ => false))
    ex_config ex_prefix.

(** alice right after [Create] on the empty store: registered, bucket full. *)
Definition ex_created : PersistedRateLimiter :=
  after (@Create ex_imports alice (5 * second)) ex_limiter.

(** ** The clock readings of [TakeAvailable] *)

(** [store] with its two clock readings apart: the one [bucket.Available]
    makes ([t_avail]) and the [time.Now()] of the timestamp ([t_stamp]).
    [store id bucket now] is [store_clocked id bucket now now]. *)
Definition store_clocked `{!Imports} (id : bytes) (bucket : option loc)
           (t_avail t_stamp : Z) : M (option error) :=
  let* cap := read bucket capacity in
  let* avail := call bucket (fun tb => bucket_Available tb t_avail) in
  let buf := PutUint64 (uint64 (int64 (cap - avail))) ++ PutUint64 (uint64 (Unix t_stamp)) in
  let* r := get_limiter in
  let* err := Put (Key RateLimitCapacity (prefix r) id) buf in
  match err with
  | Some e =>
      let* cap := read bucket capacity in
      ret (Some (ErrWriteCapacity cap id e))
  | None => ret None
  end.

(** [TakeAvailable] with the clock read where the source reads it: by the
    bucket constructor inside [getOrCreate] ([t_new]), by the debit
    [bucket.TakeAvailable] ([t_take]) and twice by the checkpoint [store]
    ([t_avail], [t_stamp]). [TakeAvailable id count now] is the case of one
    reading for the four. *)
Definition TakeAvailable_clocked `{!Imports} (id : bytes) (count : Z)
           (t_new t_take t_avail t_stamp : Z) : M Z :=
  let* r := get_limiter in
  let* bucket := getOrCreate id (defaultConfig r) t_new in
  let* rst := call (Some bucket) (fun tb => bucket_TakeAvailable tb count t_take) in
  let* err := store_clocked id (Some bucket) t_avail t_stamp in
  let* _ := match err with
            | Some e => log (LogError e)
            | None => ret tt
            end in
  ret rst.

(** One token per microsecond, ten tokens at most. *)
Definition ex_fast : PersistedRateLimiter :=
  NewPersisted ex_db (mkConfig 1000 10 1) ex_prefix.

Section Properties.

Context `{imports : !Imports}.

(** * Properties *)

(** ** Machine integers and big-endian words *)

Lemma int64_id (z : Z) : - 2 ^ 63 <= z < 2 ^ 63 -> int64 z = z.
Proof.
  intros Hz. unfold int64.
  rewrite Z.mod_small by lia. lia.
Qed.

Lemma uint64_id (z : Z) : 0 <= z < 2 ^ 64 -> uint64 z = z.
Proof. intros Hz. unfold uint64. now rewrite Z.mod_small. Qed.

Lemma Z_of_byte_of_Z (z : Z) : Z_of_byte (byte_of_Z z) = z mod 256.
Proof.
  unfold Z_of_byte, byte_of_Z, byte_of_N.
  assert (Hr : 0 <= z mod 256 < 256) by (apply Z.mod_pos_bound; lia).
  destruct (Byte.of_N (Z.to_N (z mod 256))) as [b|] eqn:Hb.
  - apply Byte.to_of_N in Hb. simpl. rewrite Hb. lia.
  - apply Byte.of_N_None_iff in Hb. lia.
Qed.

Lemma length_be_encode (n : nat) (v : Z) : length (be_encode n v) = n.
Proof.
  revert v. induction n as [|n IH]; intros v; simpl; [reflexivity|].
  rewrite length_app, IH. simpl. lia.
Qed.

Lemma be_decode_snoc (l : bytes) (x : byte) :
  be_decode (l ++ [x]) = be_decode l * 256 + Z_of_byte x.
Proof. unfold be_decode. now rewrite fold_left_app. Qed.

Lemma be_decode_encode (n : nat) (v : Z) :
  be_decode (be_encode n v) = v mod 256 ^ Z.of_nat n.
Proof.
  revert v. induction n as [|n IH]; intros v.
  - simpl. now rewrite Z.mod_1_r.
  - cbn [be_encode]. rewrite be_decode_snoc, IH, Z_of_byte_of_Z.
    rewrite Nat2Z.inj_succ, Z.pow_succ_r by lia.
    rewrite (Z.rem_mul_r v 256 (256 ^ Z.of_nat n)) by lia. lia.
Qed.

Lemma length_PutUint64 (v : Z) : length (PutUint64 v) = 8%nat.
Proof. apply length_be_encode. Qed.

Lemma Uint64_PutUint64 (v : Z) : Uint64 (PutUint64 v) = Some (uint64 v).
Proof.
  unfold Uint64. rewrite length_PutUint64.
  change (8 <? 8)%nat with false. cbv iota.
  rewrite take_ge by (rewrite length_PutUint64; lia).
  unfold PutUint64. now rewrite be_decode_encode.
Qed.

Lemma take_snapshot (a b : Z) : take 8 (PutUint64 a ++ PutUint64 b) = PutUint64 a.
Proof.
  rewrite take_app_le by (rewrite length_PutUint64; lia).
  apply take_ge. rewrite length_PutUint64. lia.
Qed.

Lemma length_snapshot (a b : Z) : length (PutUint64 a ++ PutUint64 b) = 16%nat.
Proof. now rewrite length_app, !length_PutUint64. Qed.

Lemma Key_kind_ne (k1 k2 : storagePrefix) (p id : bytes) :
  Inj (=) (=) kind_tag -> k1 <> k2 -> Key k1 p id <> Key k2 p id.
Proof.
  intros Hinj Hne Heq. unfold Key in Heq.
  assert (Htag : kind_tag k1 = kind_tag k2) by congruence.
  apply Hne, Hinj, Htag.
Qed.

(** ** Token bucket *)

Lemma newBucket_Some (c : Config) (now : Z) :
  valid_config c = true ->
  newBucket c now =
    Some (mkBucket now (int64 (Capacity c)) (int64 (Quantum c)) (int64 (Interval c))
                   (int64 (Capacity c)) 0).
Proof.
  unfold valid_config, newBucket, NewBucketWithQuantum. intros Hv.
  apply andb_prop in Hv as [Hv Hq]. apply andb_prop in Hv as [Hi Hc].
  now rewrite Hi, Hc, Hq.
Qed.

Lemma currentTick_start (tb : Bucket) : currentTick tb (startTime tb) = 0.
Proof. unfold currentTick. now rewrite Z.sub_diag. Qed.

Lemma adjust_settled (tb : Bucket) (now : Z) :
  settled tb now -> adjustAvailableTokens tb now = tb.
Proof.
  intros [Htick Hle]. unfold adjustAvailableTokens.
  rewrite <- Htick, Z.sub_diag, Z.mul_0_l, Z.add_0_r.
  destruct tb as [st cap q fi av lt]; simpl in *.
  f_equal. destruct (cap <=? av) eqn:E; [reflexivity | lia].
Qed.

Lemma adjust_ok (tb : Bucket) (now : Z) :
  bucket_ok tb now ->
  0 <= availableTokens (adjustAvailableTokens tb now) <= capacity tb /\
  settled (adjustAvailableTokens tb now) now.
Proof.
  intros (Hav & Hcap & Hq & Htick).
  unfold settled, adjustAvailableTokens, currentTick in *; simpl.
  destruct (capacity tb <=? availableTokens tb) eqn:E.
  - repeat split; lia.
  - assert (0 <= (Z.quot (now - startTime tb) (fillInterval tb) - latestTick tb) * quantum tb)
      by (apply Z.mul_nonneg_nonneg; lia).
    repeat split; lia.
Qed.

Lemma take_settled (tb : Bucket) (count now : Z) :
  settled tb now -> 0 <= availableTokens tb -> 0 <= count ->
  let '(taken, tb') := bucket_TakeAvailable tb count now in
  taken = Z.min count (availableTokens tb) /\
  availableTokens tb' = availableTokens tb - taken /\
  capacity tb' = capacity tb /\ settled tb' now.
Proof.
  intros Hs Hav Hc. unfold bucket_TakeAvailable.
  destruct (count <=? 0) eqn:E0.
  - assert (count = 0) by lia. subst. repeat split; try lia; apply Hs.
  - rewrite (adjust_settled _ _ Hs).
    destruct (availableTokens tb <=? 0) eqn:E1.
    + repeat split; try lia; apply Hs.
    + destruct Hs as [Ht Hle]. unfold settled, currentTick in *; simpl.
      repeat split; lia.
Qed.

(** ** Registry and store steps *)

#[local] Arguments PutUint64 : simpl never.
#[local] Arguments Uint64 : simpl never.
#[local] Arguments uint64 : simpl never.
#[local] Arguments int64 : simpl never.
#[local] Arguments Unix : simpl never.
#[local] Arguments adjustAvailableTokens : simpl never.
#[local] Arguments bucket_TakeAvailable : simpl never.
#[local] Arguments Key : simpl never.
#[local] Arguments newBucket : simpl never.
#[local] Arguments rate64 : simpl never.

Lemma read_Some {A} (l : loc) (getter : Bucket -> A) (r : PersistedRateLimiter) (tb : Bucket) :
  heap r !! l = Some tb -> read (Some l) getter r = Returns (getter tb) r.
Proof. intros H. unfold read. now rewrite H. Qed.

Lemma call_Some {A} (l : loc) (method : Bucket -> A * Bucket)
      (r : PersistedRateLimiter) (tb : Bucket) :
  heap r !! l = Some tb ->
  call (Some l) method r =
    Returns (method tb).1 (set_heap (<[l := (method tb).2]> (heap r)) r).
Proof. intros H. unfold call. rewrite H. now destruct (method tb). Qed.

Lemma heap_insert_lookup (l : loc) (tb tb' : Bucket) (h : list Bucket) :
  h !! l = Some tb -> <[l := tb']> h !! l = Some tb'.
Proof. intros H. apply list_lookup_insert_eq. eapply lookup_lt_Some; eauto. Qed.

Lemma getOrCreate_registered (id : bytes) (config : Config) (now : Z)
      (r : PersistedRateLimiter) (l : loc) :
  initialized r !! id = Some l -> getOrCreate id config now r = Returns l r.
Proof. intros H. unfold getOrCreate. now rewrite H. Qed.

Lemma getOrCreate_fresh (id : bytes) (config : Config) (now : Z)
      (r : PersistedRateLimiter) (tb : Bucket) :
  initialized r !! id = None -> newBucket config now = Some tb ->
  getOrCreate id config now r =
    Returns (length (heap r))
            (set_initialized (<[id := length (heap r)]> (initialized r))
                             (set_heap (heap r ++ [tb]) r)).
Proof. intros H Hn. unfold getOrCreate. now rewrite H, Hn. Qed.

(** The capacity snapshot [store] writes for a bucket in state [tb]. *)
Lemma store_spec (id : bytes) (l : loc) (now : Z) (r : PersistedRateLimiter) (tb : Bucket) :
  heap r !! l = Some tb ->
  let tb' := adjustAvailableTokens tb now in
  let r1 := set_heap (<[l := tb']> (heap r)) r in
  let key := Key RateLimitCapacity (prefix r) id in
  let buf := PutUint64 (uint64 (int64 (capacity tb - availableTokens tb')))
             ++ PutUint64 (uint64 (Unix now)) in
  store id (Some l) now r =
    if faulty (db r) OpPut key
    then Returns (Some (ErrWriteCapacity (capacity tb) id ErrIO)) r1
    else Returns None (set_db (mkDB (<[key := buf]> (data (db r))) (faulty (db r))) r1).
Proof.
  intros Hl. unfold store, bind.
  rewrite (read_Some _ _ _ _ Hl), (call_Some _ _ _ _ Hl).
  unfold get_limiter, Put, db_Put. cbn [fst snd bucket_Available db prefix set_heap].
  destruct (faulty (db r) OpPut (Key RateLimitCapacity (prefix r) id)) eqn:Hf.
  - erewrite read_Some by (cbn [heap set_db]; eapply heap_insert_lookup; eauto).
    reflexivity.
  - reflexivity.
Qed.

(** [TakeAvailable] on a registered identity: the debit is that of the
    in-memory bucket; the store only receives the snapshot. *)
Lemma TakeAvailable_registered (id : bytes) (count now : Z)
      (r : PersistedRateLimiter) (l : loc) (tb : Bucket) :
  initialized r !! id = Some l -> heap r !! l = Some tb ->
  let taken := (bucket_TakeAvailable tb count now).1 in
  let tb' := adjustAvailableTokens (bucket_TakeAvailable tb count now).2 now in
  let key := Key RateLimitCapacity (prefix r) id in
  let buf := PutUint64 (uint64 (int64 (capacity tb' - availableTokens tb')))
             ++ PutUint64 (uint64 (Unix now)) in
  exists r',
    TakeAvailable id count now r = Returns taken r' /\
    initialized r' = initialized r /\ heap r' = <[l := tb']> (heap r) /\
    prefix r' = prefix r /\ defaultConfig r' = defaultConfig r /\
    faulty (db r') = faulty (db r) /\
    if faulty (db r) OpPut key
    then data (db r') = data (db r) /\
         logged r' = logged r ++ [LogError (ErrWriteCapacity (capacity tb') id ErrIO)]
    else data (db r') = <[key := buf]> (data (db r)) /\ logged r' = logged r.
Proof.
  intros Hi Hl.
  unfold TakeAvailable, bind, get_limiter.
  rewrite (getOrCreate_registered _ _ _ _ _ Hi).
  rewrite (call_Some _ _ _ _ Hl).
  destruct (bucket_TakeAvailable tb count now) as [taken tb1] eqn:Ht. cbn [fst snd].
  set (r1 := set_heap (<[l := tb1]> (heap r)) r).
  assert (Hl1 : heap r1 !! l = Some tb1) by (eapply heap_insert_lookup; eauto).
  rewrite (store_spec id l now r1 tb1 Hl1).
  assert (Hcap : capacity (adjustAvailableTokens tb1 now) = capacity tb1) by reflexivity.
  cbn [r1 db prefix set_heap heap].
  destruct (faulty (db r) OpPut (Key RateLimitCapacity (prefix r) id)) eqn:Hf.
  - eexists. split; [reflexivity|]. cbn.
    rewrite list_insert_insert_eq, Hcap. auto 10.
  - eexists. split; [reflexivity|]. cbn.
    rewrite list_insert_insert_eq, Hcap. auto 10.
Qed.

Lemma Available_registered (id : bytes) (now : Z) (r : PersistedRateLimiter)
      (l : loc) (tb : Bucket) :
  initialized r !! id = Some l -> heap r !! l = Some tb ->
  Available id now r =
    Returns (availableTokens (adjustAvailableTokens tb now))
            (set_heap (<[l := adjustAvailableTokens tb now]> (heap r)) r).
Proof.
  intros Hi Hl. unfold Available, bind, get_limiter.
  rewrite (getOrCreate_registered _ _ _ _ _ Hi). now rewrite (call_Some _ _ _ _ Hl).
Qed.

Lemma registered_with_lookup (id : bytes) (tb : Bucket) (r : PersistedRateLimiter) :
  initialized (registered_with id tb r) !! id = Some (length (heap r)) /\
  heap (registered_with id tb r) !! length (heap r) = Some tb.
Proof.
  unfold registered_with; cbn. split.
  - apply lookup_insert_eq.
  - apply list_lookup_middle. reflexivity.
Qed.

Lemma TakeAvailable_unregistered (id : bytes) (count now : Z)
      (r : PersistedRateLimiter) (tb : Bucket) :
  initialized r !! id = None -> newBucket (defaultConfig r) now = Some tb ->
  TakeAvailable id count now r = TakeAvailable id count now (registered_with id tb r).
Proof.
  intros Hi Hn. unfold TakeAvailable, bind, get_limiter.
  rewrite (getOrCreate_fresh _ _ _ _ _ Hi Hn).
  rewrite (getOrCreate_registered id _ now (registered_with id tb r) (length (heap r)))
    by apply registered_with_lookup.
  reflexivity.
Qed.

Lemma Available_unregistered (id : bytes) (now : Z) (r : PersistedRateLimiter) (tb : Bucket) :
  initialized r !! id = None -> newBucket (defaultConfig r) now = Some tb ->
  Available id now r = Available id now (registered_with id tb r).
Proof.
  intros Hi Hn. unfold Available, bind, get_limiter.
  rewrite (getOrCreate_fresh _ _ _ _ _ Hi Hn).
  rewrite (getOrCreate_registered id _ now (registered_with id tb r) (length (heap r)))
    by apply registered_with_lookup.
  reflexivity.
Qed.

(** ** Persistence trouble inside [TakeAvailable] *)

(** C8. [TakeAvailable] returns the amount debited from the in-memory
    bucket whatever the store does: the returned value and the bucket's new
    state are functions of the bucket, the count and the clock only; when
    the snapshot write fails the store is left as it was and the failure is
    only logged (a persistence error), when it succeeds the snapshot is
    written and nothing is logged. *)
Theorem TakeAvailable_persist_failure_logged_only (id : bytes) (count now : Z)
        (r : PersistedRateLimiter) (tb : Bucket) :
  bucketFor id now r = Some tb ->
  let taken := (bucket_TakeAvailable tb count now).1 in
  let tb' := adjustAvailableTokens (bucket_TakeAvailable tb count now).2 now in
  let key := Key RateLimitCapacity (prefix r) id in
  exists r' l,
    TakeAvailable id count now r = Returns taken r' /\
    initialized r' !! id = Some l /\ heap r' !! l = Some tb' /\
    (faulty (db r) OpPut key = true ->
       data (db r') = data (db r) /\
       exists e, kind_of e = PersistenceError /\ logged r' = logged r ++ [LogError e]) /\
    (faulty (db r) OpPut key = false ->
       logged r' = logged r /\
       data (db r') !! key =
         Some (PutUint64 (uint64 (int64 (capacity tb' - availableTokens tb')))
               ++ PutUint64 (uint64 (Unix now)))).
Proof.
  intros Hb. unfold bucketFor in Hb.
  assert (Hreg : forall (r0 : PersistedRateLimiter) (l : loc),
             initialized r0 !! id = Some l -> heap r0 !! l = Some tb ->
             db r0 = db r -> prefix r0 = prefix r -> logged r0 = logged r ->
             TakeAvailable id count now r = TakeAvailable id count now r0 ->
             let taken := (bucket_TakeAvailable tb count now).1 in
             let tb' := adjustAvailableTokens (bucket_TakeAvailable tb count now).2 now in
             let key := Key RateLimitCapacity (prefix r) id in
             exists r' l,
               TakeAvailable id count now r = Returns taken r' /\
               initialized r' !! id = Some l /\ heap r' !! l = Some tb' /\
               (faulty (db r) OpPut key = true ->
                  data (db r') = data (db r) /\
                  exists e, kind_of e = PersistenceError /\
                            logged r' = logged r ++ [LogError e]) /\
               (faulty (db r) OpPut key = false ->
                  logged r' = logged r /\
                  data (db r') !! key =
                    Some (PutUint64 (uint64 (int64 (capacity tb' - availableTokens tb')))
                          ++ PutUint64 (uint64 (Unix now))))).
  { intros r0 l Hi Hl Hdb Hp Hlog Heq.
    destruct (TakeAvailable_registered id count now r0 l tb Hi Hl)
      as (r' & Hrun & Hi' & Hh' & _ & _ & _ & Hput).
    rewrite Hdb, Hp, Hlog in Hput.
    exists r', l. rewrite Heq. split; [exact Hrun|].
    split; [congruence|].
    split; [rewrite Hh'; eapply heap_insert_lookup; eauto|].
    split; intros Hf; rewrite Hf in Hput; destruct Hput as [Hd Hlg].
    - split; [exact Hd|]. eexists. split; [|exact Hlg]. reflexivity.
    - split; [exact Hlg|]. rewrite Hd. apply lookup_insert_eq. }
  destruct (initialized r !! id) as [l|] eqn:Hi.
  - apply (Hreg r l); auto.
  - destruct (registered_with_lookup id tb r) as [Hi0 Hl0].
    apply (Hreg (registered_with id tb r) (length (heap r))); auto.
    apply TakeAvailable_unregistered; assumption.
Qed.

(** ** [Create]: the blacklist check *)

Lemma checkBlacklist_absent (id : bytes) (now : Z) (r : PersistedRateLimiter) :
  let key := Key RateLimitBlacklist (prefix r) id in
  faulty (db r) OpGet key = false -> data (db r) !! key = None ->
  Create_checkBlacklist id now r = Returns None r.
Proof.
  intros key Hf Hd. unfold Create_checkBlacklist, bind, get_limiter, Get, db_Get.
  fold key. rewrite Hf, Hd. reflexivity.
Qed.

Lemma checkBlacklist_present (id : bytes) (now : Z) (r : PersistedRateLimiter)
      (val : bytes) (deadline : Z) :
  let key := Key RateLimitBlacklist (prefix r) id in
  faulty (db r) OpGet key = false -> data (db r) !! key = Some val ->
  Uint64 val = Some deadline ->
  Create_checkBlacklist id now r =
    if uint64 (Unix now) <=? deadline
    then Returns (Some (ErrBlacklisted id)) r
    else Returns None (set_db (db_Delete (db r) key).1 r).
Proof.
  intros key Hf Hd Hu. unfold Create_checkBlacklist, bind, get_limiter, Get, db_Get.
  fold key. rewrite Hf, Hd. cbn [decide]. rewrite decide_True by discriminate.
  rewrite Hu. destruct (uint64 (Unix now) <=? deadline); [reflexivity|].
  unfold Delete. now destruct (db_Delete (db r) key).
Qed.

Lemma checkBlacklist_read_error (id : bytes) (now : Z) (r : PersistedRateLimiter) :
  faulty (db r) OpGet (Key RateLimitBlacklist (prefix r) id) = true ->
  Create_checkBlacklist id now r = Panics IndexOutOfRange.
Proof.
  intros Hf. unfold Create_checkBlacklist, bind, get_limiter, Get, db_Get.
  rewrite Hf. rewrite decide_True by discriminate. reflexivity.
Qed.

(** The check fails only with the blacklist error, and then it has not
    touched the limiter. *)
Lemma checkBlacklist_error (id : bytes) (now : Z) (r r' : PersistedRateLimiter) (e : error) :
  Create_checkBlacklist id now r = Returns (Some e) r' ->
  e = ErrBlacklisted id /\ r' = r /\
  exists val deadline,
    db_Get (db r) (Key RateLimitBlacklist (prefix r) id) = (val, None) /\
    Uint64 val = Some deadline /\ uint64 (Unix now) <= deadline.
Proof.
  unfold Create_checkBlacklist, bind, get_limiter, Get.
  destruct (db_Get (db r) (Key RateLimitBlacklist (prefix r) id)) as [val err] eqn:Hg.
  destruct (decide (err <> Some ErrNotFound)) as [Hne|Heq]; [|discriminate].
  destruct (Uint64 val) as [deadline|] eqn:Hu; [|discriminate].
  destruct (uint64 (Unix now) <=? deadline) eqn:Hle.
  - intros H. injection H as <- <-. repeat split.
    exists val, deadline. repeat split; try lia; auto.
    unfold db_Get in Hg.
    destruct (faulty (db r) OpGet (Key RateLimitBlacklist (prefix r) id)).
    + injection Hg as <- <-. discriminate.
    + destruct (data (db r) !! Key RateLimitBlacklist (prefix r) id);
        injection Hg as <- <-; [reflexivity | congruence].
  - unfold Delete. destruct (db_Delete _ _). discriminate.
Qed.

Lemma loadConfig_state (id : bytes) (r r' : PersistedRateLimiter) (x : error + Config) :
  Create_loadConfig id r = Returns x r' -> r' = r.
Proof.
  unfold Create_loadConfig, bind, get_limiter, Get.
  destruct (db_Get (db r) (Key RateLimitConfig (prefix r) id)) as [val [[]|]];
    try (intros H; injection H as _ <-; reflexivity).
  destruct (rlp_DecodeBytes val); intros H; injection H as _ <-; reflexivity.
Qed.

Lemma loadConfig_error_kind (id : bytes) (r r' : PersistedRateLimiter) (e : error) :
  Create_loadConfig id r = Returns (inl e) r' -> kind_of e <> BlacklistedError.
Proof.
  unfold Create_loadConfig, bind, get_limiter, Get.
  destruct (db_Get (db r) (Key RateLimitConfig (prefix r) id)) as [val [[]|]];
    try (intros H; injection H as <- _; discriminate); try discriminate.
  destruct (rlp_DecodeBytes val); [discriminate|].
  intros H; injection H as <- _; discriminate.
Qed.

Lemma loadCapacity_no_error (id : bytes) (l : loc) (now : Z)
      (r r' : PersistedRateLimiter) (e : option error) :
  Create_loadCapacity id l now r = Returns e r' -> e = None.
Proof.
  unfold Create_loadCapacity, bind, get_limiter, Get.
  destruct (db_Get (db r) (Key RateLimitCapacity (prefix r) id)) as [val err].
  destruct (decide (err = Some ErrNotFound)); [intros H; now injection H|].
  destruct (decide (length val <> 16%nat)); [intros H; now injection H|].
  destruct (Uint64 (take 8 val)); [|discriminate].
  unfold call. destruct (heap r !! l); [|discriminate].
  destruct (bucket_TakeAvailable _ _ _). intros H; now injection H.
Qed.

(** C7. Whenever [Create(id)] fails with the blacklist error, the limiter
    is exactly as before the call: no bucket was created or registered, and
    the store (config override and capacity snapshot included) is
    unchanged; the failure is the one of a blacklist record present with
    [deadline >= now]. *)
Theorem Create_blacklisted_no_effect (id : bytes) (now : Z)
        (r r' : PersistedRateLimiter) (e : error) :
  Create id now r = Returns (Some e) r' ->
  kind_of e = BlacklistedError ->
  r' = r /\ e = ErrBlacklisted id /\
  exists val deadline,
    db_Get (db r) (Key RateLimitBlacklist (prefix r) id) = (val, None) /\
    Uint64 val = Some deadline /\ uint64 (Unix now) <= deadline.
Proof.
  unfold Create, bind at 1.
  destruct (Create_checkBlacklist id now r) as [[e0|] r1|] eqn:Hc; [| |discriminate].
  - intros H _. injection H as <- <-.
    destruct (checkBlacklist_error _ _ _ _ _ Hc) as (-> & -> & Hrec). auto.
  - unfold bind at 1.
    destruct (Create_loadConfig id r1) as [[e1|cfg] r2|] eqn:Hl; [| |discriminate].
    + intros H Hk. injection H as <- <-.
      now apply loadConfig_error_kind in Hl.
    + unfold bind.
      destruct (getOrCreate id cfg now r2) as [l r3|]; [|discriminate].
      intros H. apply loadCapacity_no_error in H. discriminate.
Qed.

(** C10 (the code departs from the claim). A blacklist read that fails
    with an I/O error is not kept away from the decoder: [Create] decodes
    the absent value and panics on the bounds check. *)
Theorem Create_blacklist_read_error_decodes (id : bytes) (now : Z)
        (r : PersistedRateLimiter) :
  faulty (db r) OpGet (Key RateLimitBlacklist (prefix r) id) = true ->
  Create id now r = Panics IndexOutOfRange.
Proof.
  intros Hf. unfold Create, bind.
  now rewrite (checkBlacklist_read_error _ _ _ Hf).
Qed.

(** ** [Create]: the capacity snapshot *)

Lemma Create_steps (id : bytes) (now : Z) (r r1 r1' r2 : PersistedRateLimiter)
      (cfg : Config) (l : loc) :
  Create_checkBlacklist id now r = Returns None r1 ->
  Create_loadConfig id r1 = Returns (inr cfg) r1' ->
  getOrCreate id cfg now r1' = Returns l r2 ->
  Create id now r = Create_loadCapacity id l now r2.
Proof.
  intros Hc Hl Hg. unfold Create, bind. now rewrite Hc, Hl, Hg.
Qed.

Lemma getOrCreate_store (id : bytes) (cfg : Config) (now : Z)
      (r r' : PersistedRateLimiter) (l : loc) :
  getOrCreate id cfg now r = Returns l r' ->
  db r' = db r /\ prefix r' = prefix r /\ logged r' = logged r /\
  defaultConfig r' = defaultConfig r /\ initialized r' !! id = Some l.
Proof.
  unfold getOrCreate. destruct (initialized r !! id) as [old|] eqn:Hi.
  - intros H; injection H as <- <-. auto.
  - destruct (newBucket cfg now); [|discriminate].
    intros H; injection H as <- <-. cbn. repeat split. apply lookup_insert_eq.
Qed.

Lemma loadCapacity_malformed (id : bytes) (l : loc) (now : Z) (r : PersistedRateLimiter)
      (val : bytes) (err : option dberror) :
  db_Get (db r) (Key RateLimitCapacity (prefix r) id) = (val, err) ->
  err <> Some ErrNotFound -> length val <> 16%nat ->
  Create_loadCapacity id l now r =
    Returns None (log_Error (LogUnexpectedLength 8 (Z.of_nat (length val))) r).
Proof.
  intros Hg He Hlen. unfold Create_loadCapacity, bind, get_limiter, Get.
  rewrite Hg. rewrite decide_False by assumption. rewrite decide_True by assumption.
  reflexivity.
Qed.

(** C5. Fail-open on a malformed snapshot: when the blacklist check and
    the config load of [Create(id)] pass and the stored capacity snapshot
    has a length other than 16, [Create] returns no error; the store is not
    written, the only trace is one log record; a bucket created by this
    call is left at full capacity and an already registered one is left as
    it was. *)
Theorem Create_malformed_snapshot_fail_open (id : bytes) (now : Z)
        (r r1 r2 : PersistedRateLimiter) (cfg : Config) (l : loc) (val : bytes) :
  Create_checkBlacklist id now r = Returns None r1 ->
  Create_loadConfig id r1 = Returns (inr cfg) r1 ->
  getOrCreate id cfg now r1 = Returns l r2 ->
  db_Get (db r1) (Key RateLimitCapacity (prefix r1) id) = (val, None) ->
  length val <> 16%nat ->
  exists r',
    Create id now r = Returns None r' /\
    db r' = db r1 /\
    logged r' = logged r1 ++ [LogUnexpectedLength 8 (Z.of_nat (length val))] /\
    initialized r' !! id = Some l /\
    (initialized r1 !! id = None ->
       exists tb, heap r' !! l = Some tb /\
                  availableTokens tb = capacity tb /\
                  capacity tb = int64 (Capacity cfg)) /\
    (is_Some (initialized r1 !! id) ->
       initialized r' = initialized r1 /\ heap r' = heap r1).
Proof.
  intros Hc Hl Hg Hget Hlen.
  destruct (getOrCreate_store _ _ _ _ _ _ Hg) as (Hdb & Hp & Hlog & _ & Hi2).
  rewrite (Create_steps _ _ _ _ _ _ _ _ Hc Hl Hg).
  rewrite (loadCapacity_malformed id l now r2 val None);
    [| rewrite Hdb, Hp; exact Hget | discriminate | exact Hlen].
  eexists. split; [reflexivity|]. cbn.
  split; [exact Hdb|]. split; [now rewrite Hlog|]. split; [exact Hi2|].
  unfold getOrCreate in Hg. split.
  - intros Hi. rewrite Hi in Hg.
    unfold newBucket, NewBucketWithQuantum in Hg.
    destruct (_ && _); [|discriminate].
    injection Hg as <- <-. cbn. eexists. split.
    + apply list_lookup_middle. reflexivity.
    + split; reflexivity.
  - intros [l0 Hi]. rewrite Hi in Hg. injection Hg as <- <-. auto.
Qed.

(** C6 (the code departs from the claim). When the read of the capacity
    snapshot fails with an I/O error, [Create] does not return a
    persistence error: it takes the empty value for a malformed record,
    logs its length and returns [nil]. *)
Theorem Create_capacity_read_error_not_surfaced (id : bytes) (now : Z)
        (r r1 r2 : PersistedRateLimiter) (cfg : Config) (l : loc) :
  Create_checkBlacklist id now r = Returns None r1 ->
  Create_loadConfig id r1 = Returns (inr cfg) r1 ->
  getOrCreate id cfg now r1 = Returns l r2 ->
  faulty (db r1) OpGet (Key RateLimitCapacity (prefix r1) id) = true ->
  Create id now r = Returns None (log_Error (LogUnexpectedLength 8 0) r2).
Proof.
  intros Hc Hl Hg Hf.
  destruct (getOrCreate_store _ _ _ _ _ _ Hg) as (Hdb & Hp & _).
  rewrite (Create_steps _ _ _ _ _ _ _ _ Hc Hl Hg).
  apply (loadCapacity_malformed id l now r2 [] (Some ErrIO)).
  - unfold db_Get. now rewrite Hdb, Hp, Hf.
  - discriminate.
  - discriminate.
Qed.

(** ** [UpdateConfig] *)

Lemma compare_Some (c : Config) (l : loc) (r : PersistedRateLimiter) (tb : Bucket) :
  heap r !! l = Some tb -> compare c (Some l) r = Returns (equivalent c tb) r.
Proof.
  intros Hl. unfold compare, equivalent, bind.
  rewrite (read_Some _ _ _ _ Hl).
  destruct (int64 (Capacity c) =? capacity tb); [|reflexivity].
  now rewrite (read_Some _ _ _ _ Hl).
Qed.

(** C9 (the code departs from the claim). On an identity with no
    in-memory bucket, [UpdateConfig] hands the [nil] pointer it read from
    the registry to [compare], whose first step reads the bucket's capacity:
    the call panics instead of registering a fresh bucket. *)
Theorem UpdateConfig_unregistered_panics (id : bytes) (config : Config) (now : Z)
        (r : PersistedRateLimiter) :
  initialized r !! id = None ->
  UpdateConfig id config now r = Panics NilDereference.
Proof.
  intros Hi. unfold UpdateConfig, bind, get_limiter. now rewrite Hi.
Qed.

Lemma consumed_range (tb : Bucket) (now : Z) :
  bucket_ok tb now -> 0 <= consumed tb now <= capacity tb /\ capacity tb < 2 ^ 63.
Proof.
  intros Hok. destruct (adjust_ok tb now Hok) as [Hav _].
  destruct Hok as (_ & Hcap & _). unfold consumed, bucket_Available. cbn [fst]. lia.
Qed.

(** C4 (amended). Reconfiguration of an active bucket. With an equivalent
    config [UpdateConfig] changes nothing at all: the same bucket object
    stays registered, untouched, and the call succeeds. With a config that
    is not equivalent (and that the bucket constructor accepts) the call
    succeeds and registers a new bucket object whose consumed amount is the
    old one capped by the new capacity: [min(c, newCapacity)], which is [c]
    whenever [c] fits into the new capacity, and never a reset to 0 unless
    [c = 0]. *)
Theorem UpdateConfig_continuity (id : bytes) (config : Config) (now : Z)
        (r : PersistedRateLimiter) (l : loc) (tb : Bucket) :
  initialized r !! id = Some l -> heap r !! l = Some tb -> bucket_ok tb now ->
  (equivalent config tb = true -> UpdateConfig id config now r = Returns None r) /\
  (equivalent config tb = false -> valid_config config = true ->
   exists r' l' tb',
     UpdateConfig id config now r = Returns None r' /\
     initialized r' !! id = Some l' /\ l' <> l /\ heap r' !! l' = Some tb' /\
     capacity tb' = int64 (Capacity config) /\
     consumed tb' now = Z.min (consumed tb now) (int64 (Capacity config))).
Proof.
  intros Hi Hl Hok. split.
  - intros Heq. unfold UpdateConfig, bind, get_limiter.
    rewrite Hi, (compare_Some _ _ _ _ Hl), Heq. reflexivity.
  - intros Hne Hv.
    destruct (consumed_range tb now Hok) as [Hc Hcap].
    pose proof (newBucket_Some config now Hv) as Hnew.
    set (tbn := mkBucket now (int64 (Capacity config)) (int64 (Quantum config))
                         (int64 (Interval config)) (int64 (Capacity config)) 0) in *.
    assert (Hsn : settled tbn now).
    { split; [symmetry; apply (currentTick_start tbn) | cbn; lia]. }
    assert (Havn : 0 <= availableTokens tbn).
    { unfold valid_config in Hv. cbn. apply andb_prop in Hv as [Hv _].
      apply andb_prop in Hv as [_ Hc']. lia. }
    unfold UpdateConfig, bind at 1 2, get_limiter.
    rewrite Hi, (compare_Some _ _ _ _ Hl), Hne.
    unfold bind at 1.
    set (r1 := set_initialized (delete id (initialized r)) r).
    assert (Hl1 : heap r1 !! l = Some tb) by exact Hl.
    unfold bind at 1 2 3.
    rewrite (read_Some _ _ _ _ Hl1), (call_Some _ _ _ _ Hl1).
    cbn [bucket_Available fst snd ret].
    change (capacity tb - availableTokens (adjustAvailableTokens tb now))
      with (consumed tb now).
    rewrite (int64_id (consumed tb now)) by lia.
    set (r2 := set_heap _ r1).
    assert (Hi2 : initialized r2 !! id = None) by (cbn; apply lookup_delete_eq).
    unfold bind at 1. rewrite (getOrCreate_fresh _ _ _ _ _ Hi2 Hnew).
    fold (registered_with id tbn r2).
    destruct (registered_with_lookup id tbn r2) as [Hi3 Hl3].
    unfold bind. rewrite (call_Some _ _ _ _ Hl3).
    pose proof (take_settled tbn (consumed tb now) now Hsn Havn ltac:(lia)) as Htake.
    destruct (bucket_TakeAvailable tbn (consumed tb now) now) as [taken tb'].
    destruct Htake as (Htaken & Hav' & Hcap' & Hs').
    cbn [fst snd]. eexists _, (length (heap r2)), tb'.
    split; [reflexivity|]. cbn [initialized set_heap heap].
    split; [exact Hi3|].
    assert (Hlen : (l < length (heap r2))%nat).
    { cbn. rewrite length_insert. eapply lookup_lt_Some; eauto. }
    split; [lia|].
    split; [eapply heap_insert_lookup; exact Hl3|].
    split; [exact Hcap'|].
    unfold consumed at 1, bucket_Available. rewrite (adjust_settled _ _ Hs').
    cbn [fst]. rewrite Hav', Hcap', Htaken. cbn [tbn availableTokens capacity]. lia.
Qed.

(** ** Snapshot round trip *)

Lemma loadConfig_frame (id : bytes) (r r' : PersistedRateLimiter) (x : error + Config) :
  prefix r' = prefix r -> defaultConfig r' = defaultConfig r ->
  db_Get (db r') (Key RateLimitConfig (prefix r) id)
    = db_Get (db r) (Key RateLimitConfig (prefix r) id) ->
  Create_loadConfig id r = Returns x r ->
  Create_loadConfig id r' = Returns x r'.
Proof.
  intros Hp Hd Hg. unfold Create_loadConfig, bind, get_limiter, Get.
  rewrite Hp, Hd, Hg.
  destruct (db_Get (db r) (Key RateLimitConfig (prefix r) id)) as [val [[]|]];
    try (intros H; injection H as <-; reflexivity).
  destruct (rlp_DecodeBytes val); intros H; injection H as <-; reflexivity.
Qed.

Lemma db_Get_insert_ne (d : DB) (k k' v : bytes) :
  k <> k' ->
  db_Get (mkDB (<[k := v]> (data d)) (faulty d)) k' = db_Get d k'.
Proof. intros Hne. unfold db_Get. cbn. now rewrite lookup_insert_ne. Qed.

Lemma db_Get_delete_ne (d : DB) (k k' : bytes) :
  k <> k' ->
  db_Get (mkDB (delete k (data d)) (faulty d)) k' = db_Get d k'.
Proof. intros Hne. unfold db_Get. cbn. now rewrite lookup_delete_ne. Qed.

Lemma loadCapacity_snapshot (id : bytes) (l : loc) (now : Z) (r : PersistedRateLimiter)
      (tb : Bucket) (a b : Z) :
  db_Get (db r) (Key RateLimitCapacity (prefix r) id)
    = (PutUint64 a ++ PutUint64 b, None) ->
  heap r !! l = Some tb ->
  Create_loadCapacity id l now r =
    Returns None
      (set_heap (<[l := (bucket_TakeAvailable tb (int64 (uint64 a)) now).2]> (heap r)) r).
Proof.
  intros Hg Hl. unfold Create_loadCapacity, bind, get_limiter, Get.
  rewrite Hg. rewrite decide_False by discriminate.
  rewrite decide_False by (rewrite length_snapshot; auto).
  rewrite take_snapshot.
  rewrite Uint64_PutUint64, (call_Some _ _ _ _ Hl). reflexivity.
Qed.

(** What [Remove(id, 0)] leaves behind for a registered bucket when the
    snapshot write goes through. *)
Lemma Remove_registered (id : bytes) (now : Z) (r : PersistedRateLimiter)
      (l : loc) (tb : Bucket) :
  initialized r !! id = Some l -> heap r !! l = Some tb ->
  let key := Key RateLimitCapacity (prefix r) id in
  let buf := PutUint64 (uint64 (int64 (consumed tb now))) ++ PutUint64 (uint64 (Unix now)) in
  faulty (db r) OpPut key = false ->
  Remove id 0 now r =
    Returns None
      (set_db (mkDB (<[key := buf]> (data (db r))) (faulty (db r)))
         (set_heap (<[l := adjustAvailableTokens tb now]> (heap r))
            (set_initialized (delete id (initialized r)) r))).
Proof.
  intros Hi Hl key buf Hf. unfold Remove, bind at 1.
  rewrite decide_False by (intros H; now apply H).
  cbn [ret]. unfold bind at 1 2, get_limiter. rewrite Hi.
  rewrite (store_spec id l now (set_initialized (delete id (initialized r)) r) tb Hl).
  cbn [db prefix set_initialized]. fold key. rewrite Hf. reflexivity.
Qed.

(** C3. Snapshot round trip without refill credit. [Remove(id, 0)] on an
    in-memory bucket writes the 16-byte record: the big-endian consumed
    amount [capacity - available], then the big-endian save time. A later
    [Create(id)], at whatever clock reading, re-creates the bucket and
    replays the consumption: the identity has [capacity - consumed] tokens,
    nothing is credited for the time elapsed since the save. The restored
    bucket is assumed able to hold the consumed amount, as it is when it has
    the capacity the snapshot was taken from. *)
Theorem snapshot_round_trip_no_refill (id : bytes) (t0 : Z) (r : PersistedRateLimiter)
        (l : loc) (tb : Bucket) (cfg : Config) :
  Inj (=) (=) kind_tag ->
  initialized r !! id = Some l -> heap r !! l = Some tb -> bucket_ok tb t0 ->
  faulty (db r) OpPut (Key RateLimitCapacity (prefix r) id) = false ->
  faulty (db r) OpGet (Key RateLimitCapacity (prefix r) id) = false ->
  faulty (db r) OpGet (Key RateLimitBlacklist (prefix r) id) = false ->
  data (db r) !! Key RateLimitBlacklist (prefix r) id = None ->
  Create_loadConfig id r = Returns (inr cfg) r ->
  valid_config cfg = true ->
  consumed tb t0 <= int64 (Capacity cfg) ->
  exists r1,
    Remove id 0 t0 r = Returns None r1 /\
    initialized r1 !! id = None /\
    data (db r1) !! Key RateLimitCapacity (prefix r) id
      = Some (PutUint64 (consumed tb t0) ++ PutUint64 (uint64 (Unix t0))) /\
    length (PutUint64 (consumed tb t0) ++ PutUint64 (uint64 (Unix t0))) = 16%nat /\
    Uint64 (PutUint64 (consumed tb t0)) = Some (consumed tb t0) /\
    forall t1, t0 < t1 ->
      exists r2 l' tb' r3,
        Create id t1 r1 = Returns None r2 /\
        initialized r2 !! id = Some l' /\ heap r2 !! l' = Some tb' /\
        capacity tb' = int64 (Capacity cfg) /\
        availableTokens tb' = capacity tb' - consumed tb t0 /\
        Available id t1 r2 = Returns (int64 (Capacity cfg) - consumed tb t0) r3.
Proof.
  intros Hinj Hi Hl Hok Hput Hgetc Hgetb Hbl Hcfg Hv Hfit.
  destruct (consumed_range tb t0 Hok) as [Hc Hcap].
  assert (Hu : uint64 (consumed tb t0) = consumed tb t0) by (apply uint64_id; lia).
  eexists. split; [apply (Remove_registered id t0 r l tb Hi Hl Hput)|].
  rewrite (int64_id (consumed tb t0)) by lia. rewrite Hu.
  set (buf := PutUint64 (consumed tb t0) ++ PutUint64 (uint64 (Unix t0))).
  set (ckey := Key RateLimitCapacity (prefix r) id).
  set (r1 := set_db _ _).
  split; [cbn; apply lookup_delete_eq|].
  split; [cbn; apply lookup_insert_eq|].
  split; [apply length_snapshot|].
  split; [now rewrite Uint64_PutUint64, Hu|].
  intros t1 _.
  (* the blacklist check passes *)
  assert (Hc1 : Create_checkBlacklist id t1 r1 = Returns None r1).
  { apply checkBlacklist_absent; cbn; [exact Hgetb|].
    rewrite lookup_insert_ne; [exact Hbl|].
    apply Key_kind_ne; [exact Hinj | discriminate]. }
  (* the effective config is the one the store held before *)
  assert (Hl1 : Create_loadConfig id r1 = Returns (inr cfg) r1).
  { apply (loadConfig_frame id r r1); try reflexivity; [|exact Hcfg].
    cbn [r1 db set_db]. apply db_Get_insert_ne.
    apply Key_kind_ne; [exact Hinj | discriminate]. }
  (* a new bucket is born at [t1] *)
  pose proof (newBucket_Some cfg t1 Hv) as Hnew.
  set (tbn := mkBucket t1 (int64 (Capacity cfg)) (int64 (Quantum cfg))
                       (int64 (Interval cfg)) (int64 (Capacity cfg)) 0) in *.
  assert (Hsn : settled tbn t1).
  { split; [symmetry; apply (currentTick_start tbn) | cbn; lia]. }
  assert (Hi1 : initialized r1 !! id = None) by (cbn; apply lookup_delete_eq).
  pose proof (getOrCreate_fresh id cfg t1 r1 tbn Hi1 Hnew) as Hg.
  fold (registered_with id tbn r1) in Hg.
  destruct (registered_with_lookup id tbn r1) as [Hi2 Hl2].
  rewrite (Create_steps _ _ _ _ _ _ _ _ Hc1 Hl1 Hg).
  (* the snapshot is replayed on it *)
  rewrite (loadCapacity_snapshot id _ t1 (registered_with id tbn r1) tbn
             (consumed tb t0) (uint64 (Unix t0)));
    [| unfold db_Get; cbn; unfold ckey; rewrite Hgetc, lookup_insert_eq; reflexivity
     | exact Hl2].
  rewrite Hu, (int64_id (consumed tb t0)) by lia.
  pose proof (take_settled tbn (consumed tb t0) t1 Hsn ltac:(cbn; lia) ltac:(lia)) as Htake.
  destruct (bucket_TakeAvailable tbn (consumed tb t0) t1) as [taken tb'].
  destruct Htake as (Htaken & Hav' & Hcap' & Hs'). cbn [snd].
  assert (Hl3 : <[length (heap r1) := tb']> (heap (registered_with id tbn r1))
                !! length (heap r1) = Some tb')
    by (eapply heap_insert_lookup; exact Hl2).
  eexists _, (length (heap r1)), tb', _.
  split; [reflexivity|].
  split; [exact Hi2|]. split; [exact Hl3|]. split; [exact Hcap'|].
  assert (Hav : availableTokens tb' = capacity tb' - consumed tb t0).
  { rewrite Hav', Hcap', Htaken. cbn [tbn availableTokens capacity]. lia. }
  split; [exact Hav|].
  erewrite Available_registered; [| exact Hi2 | exact Hl3].
  rewrite (adjust_settled _ _ Hs'), Hav, Hcap'. reflexivity.
Qed.

(** ** Blacklist window *)

Lemma Uint64_take_16 (val : bytes) :
  length val = 16%nat -> is_Some (Uint64 (take 8 val)).
Proof.
  intros Hlen. unfold Uint64. rewrite length_take, Hlen.
  change (8 `min` 16 <? 8)%nat with false. eauto.
Qed.

(** On a valid bucket pointer the last block of [Create] always returns
    [nil], and never writes to the store. *)
Lemma loadCapacity_returns (id : bytes) (l : loc) (now : Z) (r : PersistedRateLimiter)
      (tb : Bucket) :
  heap r !! l = Some tb ->
  exists r', Create_loadCapacity id l now r = Returns None r' /\ db r' = db r.
Proof.
  intros Hl. unfold Create_loadCapacity, bind, get_limiter, Get.
  destruct (db_Get (db r) (Key RateLimitCapacity (prefix r) id)) as [val err].
  destruct (decide (err = Some ErrNotFound)); [eexists; split; reflexivity|].
  destruct (decide (length val <> 16%nat)) as [|Hlen];
    [eexists; split; reflexivity|].
  destruct (Uint64_take_16 val) as [v Hv]; [lia|]. rewrite Hv.
  rewrite (call_Some _ _ _ _ Hl). eexists; split; reflexivity.
Qed.

Lemma db_Get_Delete_ne (d : DB) (k k' : bytes) :
  k <> k' -> db_Get (db_Delete d k).1 k' = db_Get d k'.
Proof.
  intros Hne. unfold db_Delete. destruct (faulty d OpDelete k); cbn [fst].
  - reflexivity.
  - now apply db_Get_delete_ne.
Qed.

Lemma data_Delete (d : DB) (k : bytes) :
  faulty d OpDelete k = false -> data (db_Delete d k).1 !! k = None.
Proof.
  intros Hf. unfold db_Delete. rewrite Hf. cbn. apply lookup_delete_eq.
Qed.

(** What a successful [Remove(id, D)] with [D <> 0] leaves in the store:
    the blacklist record with deadline [Unix(T + D)], and, apart from the
    capacity snapshot, nothing else changed. *)
Lemma Remove_blacklist_written (id : bytes) (D T : Z) (r r1 : PersistedRateLimiter) :
  D <> 0 -> Remove id D T r = Returns None r1 ->
  prefix r1 = prefix r /\ defaultConfig r1 = defaultConfig r /\
  faulty (db r1) = faulty (db r) /\ initialized r1 !! id = None /\
  forall k, k <> Key RateLimitCapacity (prefix r) id ->
    data (db r1) !! k =
      <[Key RateLimitBlacklist (prefix r) id := PutUint64 (uint64 (Unix (T + D)))]>
        (data (db r)) !! k.
Proof.
  intros HD. unfold Remove, bind at 1. rewrite decide_True by exact HD.
  unfold blacklist, bind at 1 2, get_limiter, Put, db_Put.
  destruct (faulty (db r) OpPut (Key RateLimitBlacklist (prefix r) id)) eqn:Hf;
    [discriminate|].
  cbn [ret]. unfold bind at 1 2. cbn [initialized set_db].
  destruct (initialized r !! id) as [l|] eqn:Hi.
  - set (r0 := set_initialized _ _).
    destruct (heap r0 !! l) as [tb|] eqn:Hl.
    + rewrite (store_spec id l T r0 tb Hl).
      destruct (faulty (db r0) OpPut (Key RateLimitCapacity (prefix r0) id));
        [discriminate|].
      intros H; injection H as <-. cbn.
      repeat split; [apply lookup_delete_eq|].
      intros k Hk. now rewrite lookup_insert_ne by congruence.
    + unfold store, bind, read. rewrite Hl. discriminate.
  - intros H; injection H as <-. cbn.
    repeat split. apply lookup_delete_eq.
Qed.

(** C2 (amended). Blacklist window, in the whole seconds the deadline is
    stored in. After [Remove(id, D)] with [D <> 0] at time [T]: [Create(id)]
    at a time whose Unix second is at most that of [T + D] fails with the
    blacklist error (the window is closed on the right: the second of
    [T + D] itself is still banned) and changes nothing; [Create(id)] at a
    time whose Unix second is greater succeeds, given a usable config, and
    deletes the stale blacklist record when the store performs the
    deletion. *)
Theorem blacklist_window_closed (id : bytes) (D T t : Z) (r r1 : PersistedRateLimiter)
        (cfg : Config) :
  Inj (=) (=) kind_tag ->
  D <> 0 ->
  Remove id D T r = Returns None r1 ->
  faulty (db r) OpGet (Key RateLimitBlacklist (prefix r) id) = false ->
  0 <= Unix (T + D) < 2 ^ 64 -> 0 <= Unix t < 2 ^ 64 ->
  (Unix t <= Unix (T + D) ->
     Create id t r1 = Returns (Some (ErrBlacklisted id)) r1) /\
  (Unix (T + D) < Unix t ->
   Create_loadConfig id r = Returns (inr cfg) r -> valid_config cfg = true ->
     exists r2,
       Create id t r1 = Returns None r2 /\
       (faulty (db r) OpDelete (Key RateLimitBlacklist (prefix r) id) = false ->
          data (db r2) !! Key RateLimitBlacklist (prefix r) id = None)).
Proof.
  intros Hinj HD Hrem Hget HTD Ht.
  destruct (Remove_blacklist_written id D T r r1 HD Hrem)
    as (Hp & Hdc & Hfl & Hi1 & Hdata).
  set (bkey := Key RateLimitBlacklist (prefix r) id) in *.
  assert (Hbc : bkey <> Key RateLimitCapacity (prefix r) id)
    by (apply Key_kind_ne; [exact Hinj | discriminate]).
  assert (Hrec : data (db r1) !! Key RateLimitBlacklist (prefix r1) id
                 = Some (PutUint64 (uint64 (Unix (T + D))))).
  { rewrite Hp. fold bkey. rewrite (Hdata bkey Hbc). apply lookup_insert_eq. }
  assert (Hget1 : faulty (db r1) OpGet (Key RateLimitBlacklist (prefix r1) id) = false)
    by (now rewrite Hfl, Hp).
  pose proof (checkBlacklist_present id t r1 _ _ Hget1 Hrec (Uint64_PutUint64 _)) as Hchk.
  rewrite !uint64_id in Hchk by (try rewrite uint64_id; lia).
  split.
  - intros Hle. unfold Create, bind.
    rewrite Hchk. destruct (Z.leb_spec (Unix t) (Unix (T + D))); [reflexivity | lia].
  - intros Hlt Hcfg Hv.
    destruct (Z.leb_spec (Unix t) (Unix (T + D))); [lia|].
    set (r1' := set_db _ r1) in Hchk.
    assert (Hbf : bkey <> Key RateLimitConfig (prefix r) id)
      by (apply Key_kind_ne; [exact Hinj | discriminate]).
    assert (Hcf : Key RateLimitCapacity (prefix r) id <> Key RateLimitConfig (prefix r) id)
      by (apply Key_kind_ne; [exact Hinj | discriminate]).
    assert (Hl1 : Create_loadConfig id r1' = Returns (inr cfg) r1').
    { apply (loadConfig_frame id r r1'); [exact Hp | exact Hdc | | exact Hcfg].
      unfold r1'. cbn [db set_db]. rewrite Hp. fold bkey.
      rewrite (db_Get_Delete_ne _ _ _ Hbf). unfold db_Get.
      rewrite Hfl, (Hdata _ (not_eq_sym Hcf)), lookup_insert_ne by exact Hbf.
      reflexivity. }
    pose proof (newBucket_Some cfg t Hv) as Hnew.
    set (tbn := mkBucket t (int64 (Capacity cfg)) (int64 (Quantum cfg))
                         (int64 (Interval cfg)) (int64 (Capacity cfg)) 0) in *.
    assert (Hi1' : initialized r1' !! id = None) by exact Hi1.
    pose proof (getOrCreate_fresh id cfg t r1' tbn Hi1' Hnew) as Hg.
    fold (registered_with id tbn r1') in Hg.
    destruct (loadCapacity_returns id (length (heap r1')) t _ tbn
                (proj2 (registered_with_lookup id tbn r1')))
      as (r2 & Hcap & Hdb2).
    exists r2. split.
    + rewrite (Create_steps _ _ _ _ _ _ _ _ Hchk Hl1 Hg). exact Hcap.
    + intros Hdel. rewrite Hdb2. unfold r1'. cbn [db set_db].
      rewrite Hp. fold bkey. apply data_Delete. now rewrite Hfl.
Qed.

(** * Further properties of the limiter *)

(** ** Bucket arithmetic keeps the bucket invariant *)

Lemma int64_range (z : Z) : - 2 ^ 63 <= int64 z < 2 ^ 63.
Proof.
  unfold int64.
  assert (0 <= (z + 2 ^ 63) mod 2 ^ 64 < 2 ^ 64) by (apply Z.mod_pos_bound; lia).
  lia.
Qed.

Lemma adjust_idempotent (tb : Bucket) (now : Z) :
  adjustAvailableTokens (adjustAvailableTokens tb now) now = adjustAvailableTokens tb now.
Proof.
  unfold adjustAvailableTokens, currentTick. cbn.
  rewrite Z.sub_diag, Z.mul_0_l, Z.add_0_r. f_equal.
  destruct (capacity tb <=? availableTokens tb) eqn:E.
  - now rewrite E.
  - set (x := availableTokens tb + _). clearbody x. clear E.
    destruct (capacity tb <=? _); [reflexivity|].
    now rewrite Z.min_assoc, Z.min_id.
Qed.

Lemma adjust_inv (tb : Bucket) (now : Z) :
  bucket_inv tb now -> bucket_inv (adjustAvailableTokens tb now) now.
Proof.
  intros [Hok Hfi]. destruct (adjust_ok tb now Hok) as [Hav [Htick _]].
  destruct Hok as (_ & Hcap & Hq & _).
  split; [|exact Hfi]. split; [exact Hav|].
  split; [exact Hcap|]. split; [exact Hq|].
  rewrite <- Htick. apply Z.le_refl.
Qed.

Lemma take_inv (tb : Bucket) (count now : Z) :
  bucket_inv tb now ->
  bucket_inv (bucket_TakeAvailable tb count now).2 now /\
  0 <= (bucket_TakeAvailable tb count now).1 <= Z.max 0 count /\
  (bucket_TakeAvailable tb count now).1 <= capacity tb.
Proof.
  intros Hinv. pose proof (adjust_inv tb now Hinv) as Hadj.
  destruct Hinv as [Hok Hfi]. pose proof Hok as (Hav & Hcap & Hq & Htick).
  unfold bucket_TakeAvailable.
  destruct (count <=? 0) eqn:E0; cbn [fst snd].
  - split; [exact (conj Hok Hfi)|]. lia.
  - destruct Hadj as [(Hav' & Hcap' & Hq' & Htick') Hfi'].
    change (capacity (adjustAvailableTokens tb now)) with (capacity tb) in *.
    destruct (availableTokens (adjustAvailableTokens tb now) <=? 0) eqn:E1; cbn [fst snd].
    + split; [exact (conj (conj Hav' (conj Hcap' (conj Hq' Htick'))) Hfi')|]. lia.
    + split; [|lia].
      split; [|exact Hfi'].
      split; [cbn; lia|]. split; [exact Hcap'|]. split; [exact Hq'|]. exact Htick'.
Qed.

Lemma bucket_inv_later (tb : Bucket) (now now' : Z) :
  bucket_inv tb now -> now <= now' -> bucket_inv tb now'.
Proof.
  intros [(Hav & Hcap & Hq & Htick) Hfi] Hle. split; [|exact Hfi].
  repeat split; try lia. unfold currentTick in *.
  etransitivity; [exact Htick|]. apply Z.quot_le_mono; lia.
Qed.

Lemma newBucket_inv (c : Config) (now : Z) (tb : Bucket) :
  newBucket c now = Some tb ->
  bucket_inv tb now /\ availableTokens tb = capacity tb /\
  capacity tb = int64 (Capacity c) /\ settled tb now.
Proof.
  unfold newBucket, NewBucketWithQuantum.
  destruct (_ && _) eqn:Hv; [|discriminate]. intros H; injection H as <-.
  apply andb_prop in Hv as [Hv Hq]. apply andb_prop in Hv as [Hi Hc].
  pose proof (int64_range (Capacity c)).
  unfold bucket_inv, bucket_ok, settled, currentTick. cbn.
  rewrite Z.sub_diag, Z.quot_0_l by lia. cbn. repeat split; lia.
Qed.

Lemma newBucket_valid (c : Config) (now : Z) :
  is_Some (newBucket c now) <-> valid_config c = true.
Proof.
  unfold newBucket, NewBucketWithQuantum, valid_config.
  destruct (_ && _); split; intros H; try (eexists; reflexivity);
    try reflexivity; [destruct H; discriminate | discriminate].
Qed.

(** ** Conservation *)

(** One debit followed by the refill of the same clock reading: the amount
    is bounded by the request and comes off what the refill had made
    available. *)
Lemma take_then_adjust (tb : Bucket) (n now : Z) :
  0 <= n ->
  0 <= (bucket_TakeAvailable tb n now).1 <= n /\
  availableTokens (adjustAvailableTokens (bucket_TakeAvailable tb n now).2 now)
    = availableTokens (adjustAvailableTokens tb now) - (bucket_TakeAvailable tb n now).1 /\
  capacity (bucket_TakeAvailable tb n now).2 = capacity tb.
Proof.
  intros Hn. unfold bucket_TakeAvailable.
  destruct (n <=? 0) eqn:E0; cbn [fst snd].
  - split; [lia|]. split; [lia | reflexivity].
  - destruct (availableTokens (adjustAvailableTokens tb now) <=? 0) eqn:E1; cbn [fst snd].
    + rewrite adjust_idempotent. split; [lia|]. split; [lia | reflexivity].
    + split; [lia|]. split; [|reflexivity].
      set (a := availableTokens (adjustAvailableTokens tb now)) in *.
      unfold adjustAvailableTokens at 1. unfold currentTick.
      cbn [startTime fillInterval latestTick capacity availableTokens quantum].
      change (latestTick (adjustAvailableTokens tb now))
        with (Z.quot (now - startTime tb) (fillInterval tb)).
      change (startTime (adjustAvailableTokens tb now)) with (startTime tb).
      change (fillInterval (adjustAvailableTokens tb now)) with (fillInterval tb).
      change (capacity (adjustAvailableTokens tb now)) with (capacity tb).
      rewrite Z.sub_diag, Z.mul_0_l, Z.add_0_r.
      destruct (capacity tb <=? a - Z.min n a) eqn:E2; [reflexivity|].
      apply Z.min_r. lia.
Qed.

(** A run of debits on a registered bucket at one clock reading: each debit
    is bounded by its request, and the bucket loses exactly their total. *)
Lemma takeSeq_conserves (id : bytes) (now : Z) (l : loc) (ns : list Z) :
  forall (r : PersistedRateLimiter) (tb : Bucket),
    initialized r !! id = Some l -> heap r !! l = Some tb ->
    Forall (Z.le 0) ns ->
    exists takens r' tb',
      takeSeq id now ns r = Returns takens r' /\
      Forall2 (fun taken n => 0 <= taken <= n) takens ns /\
      initialized r' !! id = Some l /\ heap r' !! l = Some tb' /\
      capacity tb' = capacity tb /\
      availableTokens (adjustAvailableTokens tb' now)
        = availableTokens (adjustAvailableTokens tb now) - total takens.
Proof.
  induction ns as [|n ns IH]; intros r tb Hi Hl Hns.
  - exists [], r, tb. cbn. repeat split; auto. lia.
  - inversion Hns as [|? ? Hn Hns']; subst.
    destruct (TakeAvailable_registered id n now r l tb Hi Hl)
      as (r1 & Hrun & Hi1 & Hh1 & _).
    destruct (take_then_adjust tb n now Hn) as (Hrange & Hav & Hcap).
    set (tb1 := adjustAvailableTokens (bucket_TakeAvailable tb n now).2 now) in *.
    assert (Hl1 : heap r1 !! l = Some tb1)
      by (rewrite Hh1; eapply heap_insert_lookup; eauto).
    assert (Hi1' : initialized r1 !! id = Some l) by (now rewrite Hi1).
    destruct (IH r1 tb1 Hi1' Hl1 Hns')
      as (takens & r' & tb' & Hseq & Hall & Hi' & Hl' & Hcap' & Hav').
    exists ((bucket_TakeAvailable tb n now).1 :: takens), r', tb'.
    cbn [takeSeq]. unfold bind at 1. rewrite Hrun.
    unfold bind at 1. rewrite Hseq.
    split; [reflexivity|]. split; [constructor; assumption|].
    split; [exact Hi'|]. split; [exact Hl'|].
    split; [rewrite Hcap'; exact Hcap|].
    rewrite Hav'. unfold tb1 at 1. rewrite adjust_idempotent. fold tb1.
    rewrite Hav. cbn [total foldr]. fold (total takens). lia.
Qed.

(** A bucket whose token count is its capacity is full at every clock
    reading. *)
Lemma adjust_full (tb : Bucket) (now : Z) :
  availableTokens tb = capacity tb ->
  availableTokens (adjustAvailableTokens tb now) = capacity tb.
Proof.
  intros Hfull. unfold adjustAvailableTokens. cbn [availableTokens].
  now rewrite Hfull, Z.leb_refl.
Qed.

(** The general law, for the bucket of any identity, registered or made by
    the first call: a run at one clock reading takes its total off what
    [Available] would have returned before the run. *)
Lemma takeSeq_from_available (id : bytes) (now : Z) (ns : list Z)
      (r : PersistedRateLimiter) (tb : Bucket) :
  bucketFor id now r = Some tb ->
  Forall (Z.le 0) ns ->
  exists takens r',
    takeSeq id now ns r = Returns takens r' /\
    Forall2 (fun taken n => 0 <= taken <= n) takens ns /\
    exists r'', Available id now r' =
                  Returns ((bucket_Available tb now).1 - total takens) r''.
Proof.
  intros Hb Hns. unfold bucketFor in Hb. cbn [bucket_Available fst].
  assert (Hreg : forall (r0 : PersistedRateLimiter) (l : loc),
             initialized r0 !! id = Some l -> heap r0 !! l = Some tb ->
             exists takens r',
               takeSeq id now ns r0 = Returns takens r' /\
               Forall2 (fun taken n => 0 <= taken <= n) takens ns /\
               exists r'', Available id now r' =
                  Returns (availableTokens (adjustAvailableTokens tb now) - total takens) r'').
  { intros r0 l Hi Hl.
    destruct (takeSeq_conserves id now l ns r0 tb Hi Hl Hns)
      as (takens & r' & tb' & Hseq & Hall & Hi' & Hl' & _ & Hav').
    exists takens, r'. split; [exact Hseq|]. split; [exact Hall|].
    rewrite (Available_registered _ _ _ _ _ Hi' Hl'), Hav'.
    eexists. reflexivity. }
  destruct (initialized r !! id) as [l|] eqn:Hi.
  - now apply (Hreg r l).
  - destruct (registered_with_lookup id tb r) as [Hi0 Hl0].
    destruct (Hreg _ _ Hi0 Hl0) as (takens & r' & Hseq & Hall & r'' & Ha).
    destruct ns as [|n ns].
    + exists [], r. split; [reflexivity|]. split; [constructor|].
      cbn [takeSeq] in Hseq. injection Hseq as <- <-.
      rewrite (Available_unregistered _ _ _ _ Hi Hb). eauto.
    + exists takens, r'. split; [|eauto].
      cbn [takeSeq] in *. unfold bind at 1.
      rewrite (TakeAvailable_unregistered _ _ _ _ _ Hi Hb). exact Hseq.
Qed.

(** The case of an identity the limiter has not seen: the first call makes
    the bucket from the default config, full. *)
Lemma takeSeq_unseen (id : bytes) (now : Z) (ns : list Z) (r : PersistedRateLimiter) :
  initialized r !! id = None ->
  valid_config (defaultConfig r) = true ->
  Forall (Z.le 0) ns ->
  exists takens r',
    takeSeq id now ns r = Returns takens r' /\
    Forall2 (fun taken n => 0 <= taken <= n) takens ns /\
    exists r'', Available id now r' =
        Returns (int64 (Capacity (defaultConfig r)) - total takens) r''.
Proof.
  intros Hi Hv Hns.
  destruct (proj2 (newBucket_valid (defaultConfig r) now) Hv) as [tb Hnew].
  destruct (newBucket_inv _ _ _ Hnew) as (_ & Hfull & Hcap & _).
  assert (Hb : bucketFor id now r = Some tb) by (unfold bucketFor; now rewrite Hi).
  destruct (takeSeq_from_available id now ns r tb Hb Hns)
    as (takens & r' & Hseq & Hall & r'' & Ha).
  cbn [bucket_Available fst] in Ha. rewrite (adjust_full _ _ Hfull), Hcap in Ha.
  eauto 10.
Qed.

(** C1. Conservation: for every identity whose bucket is full at the clock
    reading of the run, be it already registered (by [Create], [Available],
    [UpdateConfig], an earlier [TakeAvailable], and since refilled or never
    debited) or made by the first call from the default config, every run of
    [TakeAvailable(id, n_i)] calls at that one clock reading (no time elapses
    between them, so nothing is refilled) returns amounts
    [0 <= taken_i <= n_i], and [Available(id)] afterwards is the capacity
    minus their total. The counts are those of the specified interface
    (unsigned). A bucket whose token count is its capacity is full at every
    reading; for an identity the limiter has not seen, the bucket of the
    first call is full and its capacity is that of the default config. *)
Theorem TakeAvailable_conservation (id : bytes) (now : Z) (ns : list Z)
        (r : PersistedRateLimiter) (tb : Bucket) :
  bucketFor id now r = Some tb ->
  (bucket_Available tb now).1 = capacity tb ->
  Forall (Z.le 0) ns ->
  (exists takens r',
     takeSeq id now ns r = Returns takens r' /\
     Forall2 (fun taken n => 0 <= taken <= n) takens ns /\
     exists r'', Available id now r' = Returns (capacity tb - total takens) r'') /\
  (availableTokens tb = capacity tb -> forall t, (bucket_Available tb t).1 = capacity tb) /\
  (initialized r !! id = None ->
   availableTokens tb = capacity tb /\
   capacity tb = int64 (Capacity (defaultConfig r))).
Proof.
  intros Hb Hfull Hns.
  split; [|split].
  - destruct (takeSeq_from_available id now ns r tb Hb Hns)
      as (takens & r' & Hseq & Hall & r'' & Ha).
    rewrite Hfull in Ha. eauto 10.
  - intros Hf t. apply (adjust_full tb t Hf).
  - intros Hi. unfold bucketFor in Hb. rewrite Hi in Hb.
    destruct (newBucket_inv _ _ _ Hb) as (_ & Hf & Hcap & _). auto.
Qed.

(** ** Rules for calls *)

Lemma wp_ret {A} (E : panic -> Prop) (a : A) Q r : Q a r -> wp E (ret a) Q r.
Proof. exact id. Qed.

Lemma wp_bind {A B} (E : panic -> Prop) (m : M A) (k : A -> M B) Q r :
  wp E m (fun a r' => wp E (k a) Q r') r -> wp E (bind m k) Q r.
Proof. unfold wp, bind. now destruct (m r). Qed.

Lemma wp_mono {A} (E : panic -> Prop) (m : M A) (Q Q' : A -> PersistedRateLimiter -> Prop) r :
  wp E m Q r -> (forall a r', Q a r' -> Q' a r') -> wp E m Q' r.
Proof. unfold wp. destruct (m r); auto. Qed.

Lemma wp_returns {A} (E : panic -> Prop) (m : M A) Q r a r' :
  wp E m Q r -> m r = Returns a r' -> Q a r'.
Proof. unfold wp. intros H Heq. now rewrite Heq in H. Qed.

Lemma wp_never {A} (m : M A) Q r :
  wp never m Q r -> exists a r', m r = Returns a r' /\ Q a r'.
Proof. unfold wp, never. destruct (m r); [eauto | tauto]. Qed.

Lemma wp_get_limiter (E : panic -> Prop) Q r : Q r r -> wp E get_limiter Q r.
Proof. exact id. Qed.

Lemma wp_Get (E : panic -> Prop) key Q r :
  Q (db_Get (db r) key) r -> wp E (Get key) Q r.
Proof. exact id. Qed.

Lemma wp_Put (E : panic -> Prop) key value Q r :
  Q (db_Put (db r) key value).2 (set_db (db_Put (db r) key value).1 r) ->
  wp E (Put key value) Q r.
Proof. unfold wp, Put. now destruct (db_Put (db r) key value). Qed.

Lemma wp_Delete (E : panic -> Prop) key Q r :
  Q (db_Delete (db r) key).2 (set_db (db_Delete (db r) key).1 r) ->
  wp E (Delete key) Q r.
Proof. unfold wp, Delete. now destruct (db_Delete (db r) key). Qed.

Lemma wp_log (E : panic -> Prop) x Q r : Q tt (log_Error x r) -> wp E (log x) Q r.
Proof. exact id. Qed.

Lemma wp_call {A} (E : panic -> Prop) (l : loc) (method : Bucket -> A * Bucket) Q r tb :
  heap r !! l = Some tb ->
  Q (method tb).1 (set_heap (<[l := (method tb).2]> (heap r)) r) ->
  wp E (call (Some l) method) Q r.
Proof. intros Hl HQ. unfold wp. now rewrite (call_Some _ _ _ _ Hl). Qed.

Lemma wp_read {A} (E : panic -> Prop) (l : loc) (getter : Bucket -> A) Q r tb :
  heap r !! l = Some tb -> Q (getter tb) r -> wp E (read (Some l) getter) Q r.
Proof. intros Hl HQ. unfold wp. now rewrite (read_Some _ _ _ _ Hl). Qed.

Lemma wp_getOrCreate (E : panic -> Prop) id config now Q r :
  match initialized r !! id with
  | Some old => Q old r
  | None =>
      match newBucket config now with
      | Some tb => Q (length (heap r)) (registered_with id tb r)
      | None => E BucketConstructor
      end
  end ->
  wp E (getOrCreate id config now) Q r.
Proof.
  unfold wp, getOrCreate. destruct (initialized r !! id); [tauto|].
  destruct (newBucket config now); tauto.
Qed.

Lemma wp_store (E : panic -> Prop) id l now Q r tb :
  heap r !! l = Some tb ->
  (forall e d,
      e = None \/ e = Some (ErrWriteCapacity (capacity tb) id ErrIO) ->
      Q e (set_db d (set_heap (<[l := adjustAvailableTokens tb now]> (heap r)) r))) ->
  wp E (store id (Some l) now) Q r.
Proof.
  intros Hl HQ. unfold wp. rewrite (store_spec id l now r tb Hl).
  destruct (faulty _ _ _).
  - specialize (HQ (Some (ErrWriteCapacity (capacity tb) id ErrIO)) (db r)).
    destruct r. apply HQ. now right.
  - apply HQ. now left.
Qed.

(** ** What one call may change *)

Lemma limiter_ok_later (r : PersistedRateLimiter) (now now' : Z) :
  limiter_ok r now -> now <= now' -> limiter_ok r now'.
Proof.
  intros [Hreg Hh] Hle. split; [exact Hreg|].
  eapply Forall_impl; [exact Hh|]. intros tb Hb. now apply (bucket_inv_later tb now).
Qed.

Lemma NewPersisted_ok (d : DB) (config : Config) (p : bytes) (now : Z) :
  limiter_ok (NewPersisted d config p) now.
Proof.
  split; [split|]; cbn.
  - intros id l H. now rewrite lookup_empty in H.
  - intros id id' l H. now rewrite lookup_empty in H.
  - constructor.
Qed.

Lemma limiter_ok_lookup (r : PersistedRateLimiter) (now : Z) (id : bytes) (l : loc) :
  limiter_ok r now -> initialized r !! id = Some l ->
  exists tb, heap r !! l = Some tb /\ bucket_inv tb now /\ owned id r l.
Proof.
  intros [[Hval Hinj] Hh] Hi.
  destruct (lookup_lt_is_Some_2 (heap r) l (Hval _ _ Hi)) as [tb Hl].
  exists tb. split; [exact Hl|]. split.
  - rewrite Forall_lookup in Hh. exact (Hh l tb Hl).
  - intros id' l' Hne Hi' ->. apply Hne. eapply Hinj; eauto.
Qed.

Lemma owned_fresh (id : bytes) (r : PersistedRateLimiter) (now : Z) (l : loc) :
  limiter_ok r now -> (length (heap r) <= l)%nat -> owned id r l.
Proof.
  intros [[Hval _] _] Hl id' l' _ Hi' ->. specialize (Hval _ _ Hi'). lia.
Qed.

Lemma good_refl (id : bytes) (now : Z) (r : PersistedRateLimiter) :
  limiter_ok r now -> good id now r r.
Proof. intros H. split; [exact H|]. split; [|lia]. intros id' _. auto. Qed.

Lemma good_set_db (id : bytes) (now : Z) (r r' : PersistedRateLimiter) (d : DB) :
  good id now r r' -> good id now r (set_db d r').
Proof. tauto. Qed.

Lemma good_log (id : bytes) (now : Z) (r r' : PersistedRateLimiter) (x : logRecord) :
  good id now r r' -> good id now r (log_Error x r').
Proof. tauto. Qed.

Lemma good_update (id : bytes) (now : Z) (r r' : PersistedRateLimiter) (l : loc) (tb : Bucket) :
  good id now r r' -> owned id r l -> bucket_inv tb now ->
  good id now r (set_heap (<[l := tb]> (heap r')) r').
Proof.
  intros ([[Hval Hinj] Hh] & Hoth & Hlen) Hown Hb.
  split; [split; [split|]|split]; unfold registered_with, others_untouched;
    cbn [heap initialized set_heap set_initialized].
  - intros i k Hi. rewrite length_insert. eauto.
  - exact Hinj.
  - now apply Forall_insert.
  - intros id' Hne. destruct (Hoth id' Hne) as [Hi Hl]. split; [exact Hi|].
    intros l' Hi'. rewrite list_lookup_insert_ne by (intros ->; eapply Hown; eauto).
    now apply Hl.
  - now rewrite length_insert.
Qed.

Lemma good_register (id : bytes) (now : Z) (r r' : PersistedRateLimiter) (tb : Bucket) :
  limiter_ok r now -> good id now r r' -> bucket_inv tb now ->
  good id now r (registered_with id tb r').
Proof.
  intros [[Hval0 _] _] ([[Hval Hinj] Hh] & Hoth & Hlen) Hb.
  split; [split; [split|]|split]; unfold registered_with, others_untouched;
    cbn [heap initialized set_heap set_initialized].
  - intros i k Hi. rewrite length_app. cbn.
    destruct (decide (id = i)) as [<-|Hne].
    + rewrite lookup_insert_eq in Hi. injection Hi as <-. lia.
    + rewrite lookup_insert_ne in Hi by exact Hne. specialize (Hval _ _ Hi). lia.
  - intros i i' k Hi Hi'.
    destruct (decide (id = i)) as [<-|Hne]; destruct (decide (id = i')) as [<-|Hne'];
      try reflexivity.
    + rewrite lookup_insert_eq in Hi. injection Hi as <-.
      rewrite lookup_insert_ne in Hi' by exact Hne'. specialize (Hval _ _ Hi'). lia.
    + rewrite lookup_insert_eq in Hi'. injection Hi' as <-.
      rewrite lookup_insert_ne in Hi by exact Hne. specialize (Hval _ _ Hi). lia.
    + rewrite lookup_insert_ne in Hi, Hi' by assumption. eauto.
  - apply Forall_app. split; [exact Hh|]. now constructor.
  - intros id' Hne. destruct (Hoth id' Hne) as [Hi Hl]. split.
    + rewrite lookup_insert_ne by (intros ->; now apply Hne). exact Hi.
    + intros l' Hi'. rewrite lookup_app_l; [now apply Hl|].
      specialize (Hval0 _ _ Hi'). lia.
  - rewrite length_app. lia.
Qed.

Lemma good_evict (id : bytes) (now : Z) (r r' : PersistedRateLimiter) :
  good id now r r' -> good id now r (set_initialized (delete id (initialized r')) r').
Proof.
  intros ([[Hval Hinj] Hh] & Hoth & Hlen).
  split; [split; [split|]|split]; unfold registered_with, others_untouched;
    cbn [heap initialized set_heap set_initialized].
  - intros i k Hi. apply lookup_delete_Some in Hi as [_ Hi]. eauto.
  - intros i i' k Hi Hi'. apply lookup_delete_Some in Hi as [_ Hi].
    apply lookup_delete_Some in Hi' as [_ Hi']. eauto.
  - exact Hh.
  - intros id' Hne. destruct (Hoth id' Hne) as [Hi Hl]. split; [|exact Hl].
    rewrite lookup_delete_ne by (intros ->; now apply Hne). exact Hi.
  - exact Hlen.
Qed.

Lemma wp_modify (E : panic -> Prop) (f : PersistedRateLimiter -> PersistedRateLimiter)
      (Q : unit -> PersistedRateLimiter -> Prop) r :
  Q tt (f r) -> wp E (fun r => Returns tt (f r)) Q r.
Proof. tauto. Qed.

Lemma wp_compare (E : panic -> Prop) (c : Config) (l : loc) Q r tb :
  heap r !! l = Some tb -> Q (equivalent c tb) r -> wp E (compare c (Some l)) Q r.
Proof. intros Hl HQ. unfold wp. now rewrite (compare_Some _ _ _ _ Hl). Qed.

Lemma take_capacity (tb : Bucket) (count now : Z) :
  capacity (bucket_TakeAvailable tb count now).2 = capacity tb.
Proof.
  unfold bucket_TakeAvailable. destruct (count <=? 0); [reflexivity|].
  destruct (_ <=? 0); reflexivity.
Qed.

(** ** The methods, one by one *)

Lemma TakeAvailable_tail (id : bytes) (count now : Z) (r r1 : PersistedRateLimiter)
      (l : loc) (tb : Bucket) :
  good id now r r1 -> owned id r l ->
  initialized r1 !! id = Some l -> heap r1 !! l = Some tb -> bucket_inv tb now ->
  wp never
     (let* rst := call (Some l) (fun tb => bucket_TakeAvailable tb count now) in
      let* err := store id (Some l) now in
      let* _ := match err with
                | Some e => log (LogError e)
                | None => ret tt
                end in
      ret rst)
     (fun taken r' =>
        good id now r r' /\ 0 <= taken <= Z.max 0 count /\
        exists tb', initialized r' !! id = Some l /\ heap r' !! l = Some tb' /\
                    taken <= capacity tb' /\ 0 <= availableTokens tb' <= capacity tb')
     r1.
Proof.
  intros Hgood Hown Hi Hl Hb.
  destruct (take_inv tb count now Hb) as (Hb1 & Hrange & Hcap).
  pose proof (adjust_inv _ now Hb1) as Hb2.
  apply wp_bind. eapply wp_call; [exact Hl|].
  apply wp_bind. eapply wp_store; [eapply heap_insert_lookup; exact Hl|].
  intros e d _. apply wp_bind.
  assert (Hpost : forall r2,
             good id now r r2 -> initialized r2 !! id = Some l ->
             heap r2 !! l = Some (adjustAvailableTokens (bucket_TakeAvailable tb count now).2 now) ->
             good id now r r2 /\
             0 <= (bucket_TakeAvailable tb count now).1 <= Z.max 0 count /\
             exists tb', initialized r2 !! id = Some l /\ heap r2 !! l = Some tb' /\
                         (bucket_TakeAvailable tb count now).1 <= capacity tb' /\
                         0 <= availableTokens tb' <= capacity tb').
  { intros r2 Hg Hi2 Hl2. split; [exact Hg|]. split; [exact Hrange|].
    eexists. split; [exact Hi2|]. split; [exact Hl2|].
    split; [|apply Hb2].
    change (capacity (adjustAvailableTokens ?x now)) with (capacity x).
    now rewrite take_capacity. }
  assert (Hg2 : good id now r
                  (set_db d (set_heap
                     (<[l := adjustAvailableTokens (bucket_TakeAvailable tb count now).2 now]>
                        (heap (set_heap (<[l := (bucket_TakeAvailable tb count now).2]> (heap r1)) r1)))
                     (set_heap (<[l := (bucket_TakeAvailable tb count now).2]> (heap r1)) r1)))).
  { apply good_set_db, good_update; [|exact Hown|exact Hb2].
    apply good_update; assumption. }
  destruct e as [e|]; [apply wp_log | apply wp_ret]; apply wp_ret; apply Hpost;
    try exact Hi; try (apply good_log); try exact Hg2;
    cbn [heap set_heap set_db log_Error];
    (eapply heap_insert_lookup, heap_insert_lookup; exact Hl).
Qed.

Lemma TakeAvailable_wp (id : bytes) (count now : Z) (r : PersistedRateLimiter) :
  limiter_ok r now ->
  is_Some (initialized r !! id) \/ valid_config (defaultConfig r) = true ->
  wp never (TakeAvailable id count now)
     (fun taken r' =>
        good id now r r' /\ 0 <= taken <= Z.max 0 count /\
        exists l tb', initialized r' !! id = Some l /\ heap r' !! l = Some tb' /\
                      taken <= capacity tb' /\ 0 <= availableTokens tb' <= capacity tb')
     r.
Proof.
  intros Hok Hsrc. unfold TakeAvailable.
  apply wp_bind, wp_get_limiter, wp_bind, wp_getOrCreate.
  destruct (initialized r !! id) as [l|] eqn:Hi.
  - destruct (limiter_ok_lookup r now id l Hok Hi) as (tb & Hl & Hb & Hown).
    eapply wp_mono; [eapply (TakeAvailable_tail id count now r r l tb); eauto using good_refl|].
    intros taken r' (Hg & Hr & tb' & H). eauto 10.
  - destruct Hsrc as [[? Hs]|Hv]; [discriminate|].
    destruct (proj2 (newBucket_valid (defaultConfig r) now) Hv) as [tb0 Hnew].
    rewrite Hnew.
    destruct (newBucket_inv _ _ _ Hnew) as (Hb0 & _).
    destruct (registered_with_lookup id tb0 r) as [Hi0 Hl0].
    eapply wp_mono;
      [eapply (TakeAvailable_tail id count now r (registered_with id tb0 r)
                 (length (heap r)) tb0); eauto|].
    + apply good_register; auto using good_refl.
    + eapply owned_fresh; eauto.
    + intros taken r' (Hg & Hr & tb' & H). eauto 10.
Qed.

Lemma Available_tail (id : bytes) (now : Z) (r r1 : PersistedRateLimiter)
      (l : loc) (tb : Bucket) :
  good id now r r1 -> owned id r l ->
  initialized r1 !! id = Some l -> heap r1 !! l = Some tb -> bucket_inv tb now ->
  wp never (call (Some l) (fun tb => bucket_Available tb now))
     (fun a r' =>
        good id now r r' /\ db r' = db r1 /\ logged r' = logged r1 /\
        exists tb', initialized r' !! id = Some l /\ heap r' !! l = Some tb' /\
                    a = availableTokens tb' /\ 0 <= a <= capacity tb')
     r1.
Proof.
  intros Hgood Hown Hi Hl Hb. pose proof (adjust_inv _ now Hb) as Hb'.
  eapply wp_call; [exact Hl|]. cbn [bucket_Available fst snd].
  split; [apply good_update; assumption|]. split; [reflexivity|]. split; [reflexivity|].
  eexists. split; [exact Hi|]. split; [eapply heap_insert_lookup; exact Hl|].
  split; [reflexivity|]. apply Hb'.
Qed.

Lemma Available_wp (id : bytes) (now : Z) (r : PersistedRateLimiter) :
  limiter_ok r now ->
  is_Some (initialized r !! id) \/ valid_config (defaultConfig r) = true ->
  wp never (Available id now)
     (fun a r' =>
        good id now r r' /\ db r' = db r /\ logged r' = logged r /\
        exists l tb', initialized r' !! id = Some l /\ heap r' !! l = Some tb' /\
                      a = availableTokens tb' /\ 0 <= a <= capacity tb')
     r.
Proof.
  intros Hok Hsrc. unfold Available.
  apply wp_bind, wp_get_limiter, wp_bind, wp_getOrCreate.
  destruct (initialized r !! id) as [l|] eqn:Hi.
  - destruct (limiter_ok_lookup r now id l Hok Hi) as (tb & Hl & Hb & Hown).
    eapply wp_mono; [eapply (Available_tail id now r r l tb); eauto using good_refl|].
    intros a r' (Hg & Hd & Hlg & tb' & H). eauto 10.
  - destruct Hsrc as [[? Hs]|Hv]; [discriminate|].
    destruct (proj2 (newBucket_valid (defaultConfig r) now) Hv) as [tb0 Hnew].
    rewrite Hnew.
    destruct (newBucket_inv _ _ _ Hnew) as (Hb0 & _).
    destruct (registered_with_lookup id tb0 r) as [Hi0 Hl0].
    eapply wp_mono;
      [eapply (Available_tail id now r (registered_with id tb0 r)
                 (length (heap r)) tb0); eauto|].
    + apply good_register; auto using good_refl.
    + eapply owned_fresh; eauto.
    + intros a r' (Hg & Hd & Hlg & tb' & H). eauto 10.
Qed.

Lemma Remove_wp (id : bytes) (D now : Z) (r : PersistedRateLimiter) :
  limiter_ok r now ->
  wp never (Remove id D now)
     (fun res r' =>
        good id now r r' /\
        ((exists e, res = Some (ErrBlacklisting id e) /\ r' = r) \/
         (initialized r' = delete id (initialized r) /\
          (res = None \/ exists cap e, res = Some (ErrWriteCapacity cap id e)))))
     r.
Proof.
  intros Hok. unfold Remove. apply wp_bind.
  assert (Hrest : forall d,
    wp never
      (let* r0 := get_limiter in
       let bucket := initialized r0 !! id in
       let* _ := (fun r => Returns tt (set_initialized (delete id (initialized r)) r)) in
       match bucket with
       | None => ret None
       | Some l => store id (Some l) now
       end)
      (fun res r' =>
         good id now r r' /\
         ((exists e, res = Some (ErrBlacklisting id e) /\ r' = r) \/
          (initialized r' = delete id (initialized r) /\
           (res = None \/ exists cap e, res = Some (ErrWriteCapacity cap id e)))))
      (set_db d r)).
  { intros d. apply wp_bind, wp_get_limiter. cbn zeta. apply wp_bind, wp_modify.
    cbn [initialized set_db].
    destruct (initialized r !! id) as [l|] eqn:Hi.
    - destruct (limiter_ok_lookup r now id l Hok Hi) as (tb & Hl & Hb & Hown).
      eapply wp_store; [exact Hl|]. intros e d' He.
      split.
      + apply good_set_db.
        apply (good_update id now r
                 (set_initialized (delete id (initialized (set_db d r))) (set_db d r)));
          [|exact Hown|now apply adjust_inv].
        apply (good_evict id now r (set_db d r)), good_set_db, good_refl, Hok.
      + right. split; [reflexivity|].
        destruct He as [->| ->]; [now left | right; eauto].
    - apply wp_ret. split.
      + apply (good_evict id now r (set_db d r)), good_set_db, good_refl, Hok.
      + right. split; [reflexivity | now left]. }
  destruct (decide (D <> 0)).
  - unfold blacklist. apply wp_bind, wp_get_limiter, wp_bind, wp_Put.
    unfold db_Put. destruct (faulty _ _ _); cbn [fst snd].
    + apply wp_ret, wp_ret. split.
      * assert (set_db (db r) r = r) as -> by now destruct r. apply good_refl, Hok.
      * left. eexists. split; [reflexivity|]. now destruct r.
    + apply wp_ret. apply Hrest.
  - apply wp_ret.
    assert (r = set_db (db r) r) as Heq by now destruct r.
    rewrite Heq at 1. apply Hrest.
Qed.

Lemma UpdateConfig_wp (id : bytes) (config : Config) (now : Z) (r : PersistedRateLimiter) :
  limiter_ok r now ->
  wp (fun p => (p = NilDereference /\ initialized r !! id = None) \/
               (p = BucketConstructor /\ valid_config config = false))
     (UpdateConfig id config now)
     (fun res r' =>
        good id now r r' /\ res = None /\ db r' = db r /\ logged r' = logged r /\
        prefix r' = prefix r /\ defaultConfig r' = defaultConfig r)
     r.
Proof.
  intros Hok. unfold UpdateConfig. apply wp_bind, wp_get_limiter. cbn zeta.
  destruct (initialized r !! id) as [l|] eqn:Hi.
  - destruct (limiter_ok_lookup r now id l Hok Hi) as (tb & Hl & Hb & Hown).
    apply wp_bind. eapply wp_compare; [exact Hl|].
    destruct (equivalent config tb).
    + apply wp_ret. split; [now apply good_refl | auto 10].
    + apply wp_bind, wp_modify.
      set (r1 := set_initialized (delete id (initialized r)) r).
      assert (Hg1 : good id now r r1) by (apply good_evict, good_refl, Hok).
      apply wp_bind, wp_bind. eapply wp_read; [exact Hl|].
      apply wp_bind. eapply wp_call; [exact Hl|]. apply wp_ret.
      set (r2 := set_heap _ r1).
      assert (Hg2 : good id now r r2)
        by (apply good_update; [exact Hg1 | exact Hown | now apply adjust_inv]).
      apply wp_bind, wp_getOrCreate.
      assert (Hi2 : initialized r2 !! id = None) by apply lookup_delete_eq.
      rewrite Hi2.
      destruct (newBucket config now) as [tbn|] eqn:Hnew.
      * destruct (newBucket_inv _ _ _ Hnew) as (Hbn & _).
        destruct (registered_with_lookup id tbn r2) as [Hi3 Hl3].
        apply wp_bind. eapply wp_call; [exact Hl3|]. apply wp_ret.
        split; [|auto 10].
        apply good_update.
        -- apply good_register; [exact Hok | exact Hg2 | exact Hbn].
        -- eapply owned_fresh; [exact Hok|]. apply Hg2.
        -- apply take_inv, Hbn.
      * right. split; [reflexivity|].
        destruct (valid_config config) eqn:Hv; [|reflexivity].
        destruct (proj2 (newBucket_valid config now) Hv) as [? Hs]. congruence.
  - unfold wp, bind, compare, read. left. auto.
Qed.

Lemma loadCapacity_wp (E : panic -> Prop) (id : bytes) (l : loc) (now : Z)
      (r r1 : PersistedRateLimiter) (tb : Bucket) :
  E IndexOutOfRange ->
  good id now r r1 -> owned id r l -> heap r1 !! l = Some tb -> bucket_inv tb now ->
  wp E (Create_loadCapacity id l now) (fun res r' => good id now r r' /\ res = None) r1.
Proof.
  intros HE Hg Hown Hl Hb. unfold Create_loadCapacity.
  apply wp_bind, wp_get_limiter. cbn zeta. apply wp_bind, wp_Get.
  destruct (db_Get _ _) as [val err].
  destruct (decide (err = Some ErrNotFound)); [now apply wp_ret|].
  destruct (decide (length val <> 16%nat)).
  - apply wp_bind, wp_log, wp_ret. split; [now apply good_log | reflexivity].
  - destruct (Uint64 (take 8 val)); [|exact HE].
    apply wp_bind. eapply wp_call; [exact Hl|]. apply wp_ret.
    split; [|reflexivity]. apply good_update; [exact Hg | exact Hown | apply take_inv, Hb].
Qed.

Lemma checkBlacklist_wp (E : panic -> Prop) (id : bytes) (now : Z) (r : PersistedRateLimiter) :
  E IndexOutOfRange ->
  wp E (Create_checkBlacklist id now)
     (fun _ r1 => exists d, r1 = set_db d r /\ faulty d = faulty (db r)) r.
Proof.
  intros HE. unfold Create_checkBlacklist. apply wp_bind, wp_get_limiter. cbn zeta.
  apply wp_bind, wp_Get.
  destruct (db_Get _ _) as [val err].
  destruct (decide (err <> Some ErrNotFound)).
  - destruct (Uint64 val); [|exact HE].
    destruct (_ <=? _).
    + apply wp_ret. exists (db r). now destruct r.
    + apply wp_bind, wp_Delete, wp_ret. eexists. split; [reflexivity|].
      unfold db_Delete. now destruct (faulty _ _ _).
  - apply wp_ret. exists (db r). now destruct r.
Qed.

Lemma Create_wp (id : bytes) (now : Z) (r : PersistedRateLimiter) :
  limiter_ok r now ->
  wp (fun p => p = IndexOutOfRange \/ p = BucketConstructor)
     (Create id now)
     (fun _ r' => good id now r r')
     r.
Proof.
  intros Hok. unfold Create. apply wp_bind.
  eapply wp_mono; [apply checkBlacklist_wp; now left|]. cbn beta.
  intros banned r1 (d & -> & _).
  assert (Hg1 : good id now r (set_db d r)) by (apply good_set_db, good_refl, Hok).
  destruct banned; [now apply wp_ret|].
  apply wp_bind. unfold Create_loadConfig.
  apply wp_bind, wp_get_limiter. cbn zeta. apply wp_bind, wp_Get.
  assert (Htail : forall cfg,
    wp (fun p => p = IndexOutOfRange \/ p = BucketConstructor)
       (let* bucket := getOrCreate id cfg now in Create_loadCapacity id bucket now)
       (fun _ r' => good id now r r') (set_db d r)).
  { intros cfg. apply wp_bind, wp_getOrCreate. cbn [initialized set_db].
    destruct (initialized r !! id) as [l|] eqn:Hi.
    - destruct (limiter_ok_lookup r now id l Hok Hi) as (tb & Hl & Hb & Hown).
      eapply wp_mono.
      { eapply (loadCapacity_wp _ id l now r); eauto; try (now left). }
      now intros ? ? [? _].
    - destruct (newBucket cfg now) as [tbn|] eqn:Hnew; [|now right].
      destruct (newBucket_inv _ _ _ Hnew) as (Hbn & _).
      eapply wp_mono;
        [eapply (loadCapacity_wp _ id _ now r (registered_with id tbn (set_db d r)) tbn)|].
      + now left.
      + apply good_register; assumption.
      + eapply owned_fresh; [exact Hok|]. cbn. lia.
      + apply registered_with_lookup.
      + exact Hbn.
      + now intros ? ? [? _]. }
  destruct (db_Get _ _) as [val [[]|]].
  - apply wp_ret. apply Htail.
  - apply wp_ret, wp_ret. exact Hg1.
  - destruct (rlp_DecodeBytes val); apply wp_ret; [apply Htail | apply wp_ret; exact Hg1].
Qed.

Lemma getOrCreate_returns (id : bytes) (config : Config) (now : Z)
      (r r' : PersistedRateLimiter) (l : loc) :
  getOrCreate id config now r = Returns l r' ->
  is_Some (initialized r !! id) \/ valid_config config = true.
Proof.
  unfold getOrCreate. destruct (initialized r !! id); [eauto|].
  destruct (newBucket config now) eqn:Hnew; [|discriminate].
  intros _. right. apply (newBucket_valid config now). eauto.
Qed.

Lemma TakeAvailable_returns (id : bytes) (count now : Z)
      (r r' : PersistedRateLimiter) (taken : Z) :
  TakeAvailable id count now r = Returns taken r' ->
  is_Some (initialized r !! id) \/ valid_config (defaultConfig r) = true.
Proof.
  unfold TakeAvailable, bind, get_limiter.
  destruct (getOrCreate id (defaultConfig r) now r) eqn:Hg; [|discriminate].
  intros _. eapply getOrCreate_returns; eauto.
Qed.

Lemma Available_returns (id : bytes) (now : Z) (r r' : PersistedRateLimiter) (a : Z) :
  Available id now r = Returns a r' ->
  is_Some (initialized r !! id) \/ valid_config (defaultConfig r) = true.
Proof.
  unfold Available, bind, get_limiter.
  destruct (getOrCreate id (defaultConfig r) now r) eqn:Hg; [|discriminate].
  intros _. eapply getOrCreate_returns; eauto.
Qed.

(** ** Invariants *)

(** X1. The limiter stays in good order: the registry only points to
    allocated buckets, no two identities share a bucket, and every bucket
    keeps [0 <= available <= capacity] with a positive fill interval. A
    limiter in good order at clock reading [now] is still in good order after
    any method call made at [now' >= now] that returns. *)
Theorem methods_keep_limiter_ok (r : PersistedRateLimiter) (now now' : Z) :
  limiter_ok r now -> now <= now' ->
  (forall id res r', Create id now' r = Returns res r' -> limiter_ok r' now') /\
  (forall id D res r', Remove id D now' r = Returns res r' -> limiter_ok r' now') /\
  (forall id count taken r',
      TakeAvailable id count now' r = Returns taken r' -> limiter_ok r' now') /\
  (forall id a r', Available id now' r = Returns a r' -> limiter_ok r' now') /\
  (forall id config res r',
      UpdateConfig id config now' r = Returns res r' -> limiter_ok r' now').
Proof.
  intros Hok0 Hle. pose proof (limiter_ok_later r now now' Hok0 Hle) as Hok.
  split; [|split; [|split; [|split]]].
  - intros id res r' Hrun. exact (proj1 (wp_returns _ _ _ _ _ _ (Create_wp id now' r Hok) Hrun)).
  - intros id D res r' Hrun.
    exact (proj1 (proj1 (wp_returns _ _ _ _ _ _ (Remove_wp id D now' r Hok) Hrun))).
  - intros id count taken r' Hrun.
    pose proof (TakeAvailable_returns _ _ _ _ _ _ Hrun) as Hsrc.
    exact (proj1 (proj1 (wp_returns _ _ _ _ _ _ (TakeAvailable_wp id count now' r Hok Hsrc) Hrun))).
  - intros id a r' Hrun.
    pose proof (Available_returns _ _ _ _ _ Hrun) as Hsrc.
    exact (proj1 (proj1 (wp_returns _ _ _ _ _ _ (Available_wp id now' r Hok Hsrc) Hrun))).
  - intros id config res r' Hrun.
    exact (proj1 (proj1 (wp_returns _ _ _ _ _ _ (UpdateConfig_wp id config now' r Hok) Hrun))).
Qed.

(** X2. Isolation: a method call on identity [id] never changes which
    bucket another identity is registered with, nor the state of that
    bucket. *)
Theorem methods_leave_other_identities_untouched (r : PersistedRateLimiter) (now : Z)
        (id : bytes) :
  limiter_ok r now ->
  (forall res r', Create id now r = Returns res r' -> others_untouched id r r') /\
  (forall D res r', Remove id D now r = Returns res r' -> others_untouched id r r') /\
  (forall count taken r',
      TakeAvailable id count now r = Returns taken r' -> others_untouched id r r') /\
  (forall a r', Available id now r = Returns a r' -> others_untouched id r r') /\
  (forall config res r',
      UpdateConfig id config now r = Returns res r' -> others_untouched id r r').
Proof.
  intros Hok. split; [|split; [|split; [|split]]].
  - intros res r' Hrun.
    exact (proj1 (proj2 (wp_returns _ _ _ _ _ _ (Create_wp id now r Hok) Hrun))).
  - intros D res r' Hrun.
    exact (proj1 (proj2 (proj1 (wp_returns _ _ _ _ _ _ (Remove_wp id D now r Hok) Hrun)))).
  - intros count taken r' Hrun.
    pose proof (TakeAvailable_returns _ _ _ _ _ _ Hrun) as Hsrc.
    exact (proj1 (proj2 (proj1 (wp_returns _ _ _ _ _ _
                                  (TakeAvailable_wp id count now r Hok Hsrc) Hrun)))).
  - intros a r' Hrun.
    pose proof (Available_returns _ _ _ _ _ Hrun) as Hsrc.
    exact (proj1 (proj2 (proj1 (wp_returns _ _ _ _ _ _ (Available_wp id now r Hok Hsrc) Hrun)))).
  - intros config res r' Hrun.
    exact (proj1 (proj2 (proj1 (wp_returns _ _ _ _ _ _
                                  (UpdateConfig_wp id config now r Hok) Hrun)))).
Qed.

(** X3. [TakeAvailable] on a limiter in good order, for a registered
    identity or with a default config the bucket constructor accepts, always
    returns: it never panics, and the amount is never negative, never more
    than requested and never more than the capacity of the identity's
    bucket, which keeps [0 <= available <= capacity]. *)
Theorem TakeAvailable_returns_within_bounds (id : bytes) (count now : Z)
        (r : PersistedRateLimiter) :
  limiter_ok r now ->
  is_Some (initialized r !! id) \/ valid_config (defaultConfig r) = true ->
  exists taken r' l tb,
    TakeAvailable id count now r = Returns taken r' /\
    0 <= taken <= Z.max 0 count /\
    initialized r' !! id = Some l /\ heap r' !! l = Some tb /\
    taken <= capacity tb /\ 0 <= availableTokens tb <= capacity tb.
Proof.
  intros Hok Hsrc.
  destruct (wp_never _ _ _ (TakeAvailable_wp id count now r Hok Hsrc))
    as (taken & r' & Hrun & _ & Hr & l & tb & Hi & Hl & Hc & Ha).
  exists taken, r', l, tb. auto 10.
Qed.

(** X4. [Available] on a limiter in good order, for a registered identity
    or with a default config the bucket constructor accepts, always returns
    a value between 0 and the capacity of the identity's bucket, and it
    neither writes to the store nor logs. *)
Theorem Available_returns_within_capacity (id : bytes) (now : Z)
        (r : PersistedRateLimiter) :
  limiter_ok r now ->
  is_Some (initialized r !! id) \/ valid_config (defaultConfig r) = true ->
  exists a r' l tb,
    Available id now r = Returns a r' /\
    initialized r' !! id = Some l /\ heap r' !! l = Some tb /\
    0 <= a <= capacity tb /\ db r' = db r /\ logged r' = logged r.
Proof.
  intros Hok Hsrc.
  destruct (wp_never _ _ _ (Available_wp id now r Hok Hsrc))
    as (a & r' & Hrun & _ & Hd & Hlg & l & tb & Hi & Hl & _ & Ha).
  exists a, r', l, tb. auto 10.
Qed.

(** X5. [Remove] on a limiter in good order never panics. Either the
    blacklist write failed, the blacklisting error is returned and nothing
    has changed; or the identity is evicted from the registry, whether the
    snapshot write succeeded ([nil]) or failed (the capacity write error). *)
Theorem Remove_returns_and_evicts (id : bytes) (D now : Z) (r : PersistedRateLimiter) :
  limiter_ok r now ->
  exists res r',
    Remove id D now r = Returns res r' /\
    ((exists e, res = Some (ErrBlacklisting id e) /\ r' = r) \/
     (initialized r' = delete id (initialized r) /\
      (res = None \/ exists cap e, res = Some (ErrWriteCapacity cap id e)))).
Proof.
  intros Hok.
  destruct (wp_never _ _ _ (Remove_wp id D now r Hok)) as (res & r' & Hrun & _ & H).
  eauto.
Qed.

(** X6. [UpdateConfig] never returns an error and never touches the store
    or the log: whatever it does stays in memory. On a registered identity,
    with a config the bucket constructor accepts, it always returns. *)
Theorem UpdateConfig_in_memory_only (id : bytes) (config : Config) (now : Z)
        (r : PersistedRateLimiter) :
  limiter_ok r now ->
  (forall res r', UpdateConfig id config now r = Returns res r' ->
                  res = None /\ db r' = db r /\ logged r' = logged r) /\
  (is_Some (initialized r !! id) -> valid_config config = true ->
   exists r', UpdateConfig id config now r = Returns None r').
Proof.
  intros Hok. pose proof (UpdateConfig_wp id config now r Hok) as Hwp. split.
  - intros res r' Hrun.
    destruct (wp_returns _ _ _ _ _ _ Hwp Hrun) as (_ & ? & ? & ? & _). auto.
  - intros [l Hi] Hv. unfold wp in Hwp.
    destruct (UpdateConfig id config now r) as [res r'|p].
    + destruct Hwp as (_ & -> & _). eauto.
    + destruct Hwp as [[_ Hn]|[_ Hn]]; congruence.
Qed.

(** ** [Remove]: edge cases *)

Lemma set_initialized_delete_absent (id : bytes) (r : PersistedRateLimiter) :
  initialized r !! id = None -> set_initialized (delete id (initialized r)) r = r.
Proof. intros Hi. unfold set_initialized. rewrite (delete_id _ _ Hi). now destruct r. Qed.

(** X7. [Remove] of an identity that has no bucket never writes a
    capacity snapshot: without a ban it changes nothing at all, with a ban
    (and a store that takes the write) it only stores the blacklist record,
    whose value is the big-endian Unix second of [now + D]. *)
Theorem Remove_unregistered (id : bytes) (D now : Z) (r : PersistedRateLimiter) :
  initialized r !! id = None ->
  (D = 0 -> Remove id D now r = Returns None r) /\
  (D <> 0 -> faulty (db r) OpPut (Key RateLimitBlacklist (prefix r) id) = false ->
   Remove id D now r =
     Returns None
       (set_db (mkDB (<[Key RateLimitBlacklist (prefix r) id
                         := PutUint64 (uint64 (Unix (now + D)))]> (data (db r)))
                     (faulty (db r))) r)).
Proof.
  intros Hi. split.
  - intros ->. unfold Remove, bind at 1. rewrite decide_False by (intros H; now apply H).
    cbn [ret]. unfold bind, get_limiter. rewrite Hi.
    now rewrite (set_initialized_delete_absent id r Hi).
  - intros HD Hf. unfold Remove, bind at 1. rewrite decide_True by exact HD.
    unfold blacklist, bind at 1 2, get_limiter, Put, db_Put. rewrite Hf.
    cbn [ret]. unfold bind, get_limiter. cbn [initialized set_db]. rewrite Hi.
    unfold ret. f_equal.
    apply (set_initialized_delete_absent id (set_db _ r)). exact Hi.
Qed.

(** X8. When the blacklist write of [Remove(id, D)], [D <> 0], fails,
    the error is returned and the removal does not proceed: the limiter is
    exactly as before, the bucket is still registered. *)
Theorem Remove_blacklist_failure_changes_nothing (id : bytes) (D now : Z)
        (r : PersistedRateLimiter) :
  D <> 0 ->
  faulty (db r) OpPut (Key RateLimitBlacklist (prefix r) id) = true ->
  Remove id D now r = Returns (Some (ErrBlacklisting id ErrIO)) r.
Proof.
  intros HD Hf. unfold Remove, bind at 1. rewrite decide_True by exact HD.
  unfold blacklist, bind at 1 2, get_limiter, Put, db_Put. rewrite Hf.
  cbn [ret]. now destruct r.
Qed.

Lemma loadCapacity_absent (id : bytes) (l : loc) (now : Z) (r : PersistedRateLimiter)
      (val : bytes) :
  db_Get (db r) (Key RateLimitCapacity (prefix r) id) = (val, Some ErrNotFound) ->
  Create_loadCapacity id l now r = Returns None r.
Proof.
  intros Hg. unfold Create_loadCapacity, bind, get_limiter, Get. rewrite Hg.
  now rewrite decide_True by reflexivity.
Qed.

Lemma db_Get_absent (d : DB) (k : bytes) :
  faulty d OpGet k = false -> data d !! k = None -> db_Get d k = ([], Some ErrNotFound).
Proof. intros Hf Hd. unfold db_Get. now rewrite Hf, Hd. Qed.

(** A first [Create] on a store without snapshot for the identity. *)
Lemma Create_fresh_full (id : bytes) (now : Z) (r r1 : PersistedRateLimiter)
      (cfg : Config) (val : bytes) :
  Create_checkBlacklist id now r = Returns None r1 ->
  Create_loadConfig id r1 = Returns (inr cfg) r1 ->
  initialized r1 !! id = None -> valid_config cfg = true ->
  db_Get (db r1) (Key RateLimitCapacity (prefix r1) id) = (val, Some ErrNotFound) ->
  exists tb,
    newBucket cfg now = Some tb /\
    Create id now r = Returns None (registered_with id tb r1) /\
    exists r'',
      Available id now (registered_with id tb r1) = Returns (int64 (Capacity cfg)) r''.
Proof.
  intros Hc Hl Hi Hv Hg.
  destruct (proj2 (newBucket_valid cfg now) Hv) as [tb Hnew].
  destruct (newBucket_inv _ _ _ Hnew) as (_ & Hfull & Hcap & Hs).
  exists tb. split; [exact Hnew|].
  pose proof (getOrCreate_fresh id cfg now r1 tb Hi Hnew) as Hget.
  fold (registered_with id tb r1) in Hget.
  destruct (registered_with_lookup id tb r1) as [Hi2 Hl2].
  split.
  - rewrite (Create_steps _ _ _ _ _ _ _ _ Hc Hl Hget).
    apply (loadCapacity_absent id _ now _ val). exact Hg.
  - rewrite (Available_registered _ _ _ _ _ Hi2 Hl2), (adjust_settled _ _ Hs).
    eexists. now rewrite Hfull, Hcap.
Qed.

(** X9. When the snapshot write of [Remove(id, 0)] fails, the write error
    is returned, yet the bucket is already gone from the registry and the
    store is unchanged: the consumed budget is lost. With no older snapshot
    in the store, the next [Create(id)] gives the identity a full bucket. *)
Theorem Remove_snapshot_failure_resets_budget (id : bytes) (t0 : Z)
        (r : PersistedRateLimiter) (l : loc) (tb : Bucket) (cfg : Config) :
  initialized r !! id = Some l -> heap r !! l = Some tb ->
  faulty (db r) OpPut (Key RateLimitCapacity (prefix r) id) = true ->
  faulty (db r) OpGet (Key RateLimitCapacity (prefix r) id) = false ->
  faulty (db r) OpGet (Key RateLimitBlacklist (prefix r) id) = false ->
  data (db r) !! Key RateLimitBlacklist (prefix r) id = None ->
  data (db r) !! Key RateLimitCapacity (prefix r) id = None ->
  Create_loadConfig id r = Returns (inr cfg) r ->
  valid_config cfg = true ->
  exists e r1,
    Remove id 0 t0 r = Returns (Some e) r1 /\
    kind_of e = PersistenceError /\
    initialized r1 !! id = None /\ db r1 = db r /\
    forall t1, exists r2 r3,
      Create id t1 r1 = Returns None r2 /\
      Available id t1 r2 = Returns (int64 (Capacity cfg)) r3.
Proof.
  intros Hi Hl Hput Hgetc Hgetb Hbl Hcapn Hcfg Hv.
  set (r1 := set_heap (<[l := adjustAvailableTokens tb t0]> (heap r))
               (set_initialized (delete id (initialized r)) r)).
  exists (ErrWriteCapacity (capacity tb) id ErrIO), r1.
  split.
  { unfold Remove, bind at 1. rewrite decide_False by (intros H; now apply H).
    cbn [ret]. unfold bind at 1 2, get_limiter. rewrite Hi.
    rewrite (store_spec id l t0 (set_initialized (delete id (initialized r)) r) tb Hl).
    cbn [db prefix set_initialized]. now rewrite Hput. }
  split; [reflexivity|].
  assert (Hi1 : initialized r1 !! id = None) by apply lookup_delete_eq.
  split; [exact Hi1|]. split; [reflexivity|].
  intros t1.
  assert (Hc1 : Create_checkBlacklist id t1 r1 = Returns None r1)
    by (apply checkBlacklist_absent; assumption).
  assert (Hl1 : Create_loadConfig id r1 = Returns (inr cfg) r1)
    by (apply (loadConfig_frame id r r1); auto).
  destruct (Create_fresh_full id t1 r1 r1 cfg [] Hc1 Hl1 Hi1 Hv) as (tbn & _ & Hrun & r3 & Ha).
  { apply db_Get_absent; assumption. }
  eauto.
Qed.

(** ** [Create]: edge cases *)

Lemma loadConfig_error_form (id : bytes) (r r' : PersistedRateLimiter) (e : error) :
  Create_loadConfig id r = Returns (inl e) r' ->
  e = ErrReadKey (Key RateLimitConfig (prefix r) id) ErrIO \/
  exists val, e = ErrDecodeConfig val /\ rlp_DecodeBytes val = None.
Proof.
  unfold Create_loadConfig, bind, get_limiter, Get, db_Get.
  destruct (faulty _ _ _).
  - intros H; injection H as <- _. now left.
  - destruct (data (db r) !! _) as [val|]; [|discriminate].
    destruct (rlp_DecodeBytes val) eqn:Hd; [discriminate|].
    intros H; injection H as <- _. right. eauto.
Qed.

(** X10. A [Create] that returns an error has registered nothing: the
    registry, the buckets and the log are as before the call. The error is
    the blacklist error, the read error of the config record, or the decode
    error of a stored config that does not parse; the last block of
    [Create] never returns one. *)
Theorem Create_error_registers_nothing (id : bytes) (now : Z)
        (r r' : PersistedRateLimiter) (e : error) :
  Create id now r = Returns (Some e) r' ->
  initialized r' = initialized r /\ heap r' = heap r /\ logged r' = logged r /\
  (e = ErrBlacklisted id \/
   e = ErrReadKey (Key RateLimitConfig (prefix r) id) ErrIO \/
   exists val, e = ErrDecodeConfig val /\ rlp_DecodeBytes val = None).
Proof.
  unfold Create, bind at 1.
  destruct (Create_checkBlacklist id now r) as [[e0|] r1|] eqn:Hc; [| |discriminate].
  - intros H. injection H as <- <-.
    destruct (checkBlacklist_error _ _ _ _ _ Hc) as (-> & -> & _). auto.
  - destruct (wp_returns _ _ _ _ _ _ (checkBlacklist_wp (fun _ => True) id now r I) Hc)
      as (d & -> & _).
    unfold bind at 1.
    destruct (Create_loadConfig id (set_db d r)) as [[e1|cfg] r2|] eqn:Hl; [| |discriminate].
    + intros H. injection H as <- <-.
      rewrite (loadConfig_state _ _ _ _ Hl).
      apply loadConfig_error_form in Hl. auto.
    + unfold bind.
      destruct (getOrCreate id cfg now r2) as [l r3|]; [|discriminate].
      intros H. apply loadCapacity_no_error in H. discriminate.
Qed.

Lemma loadCapacity_wellformed (id : bytes) (l : loc) (now : Z) (r : PersistedRateLimiter)
      (tb : Bucket) (val : bytes) (c : Z) :
  db_Get (db r) (Key RateLimitCapacity (prefix r) id) = (val, None) ->
  length val = 16%nat -> Uint64 (take 8 val) = Some c ->
  heap r !! l = Some tb ->
  Create_loadCapacity id l now r =
    Returns None (set_heap (<[l := (bucket_TakeAvailable tb (int64 c) now).2]> (heap r)) r).
Proof.
  intros Hg Hlen Hu Hl. unfold Create_loadCapacity, bind, get_limiter, Get.
  rewrite Hg. rewrite decide_False by discriminate.
  rewrite decide_False by (intros H; now apply H).
  rewrite Hu, (call_Some _ _ _ _ Hl). reflexivity.
Qed.

Lemma take_positive (tb : Bucket) (count now : Z) :
  bucket_ok tb now -> 0 < count ->
  availableTokens (bucket_TakeAvailable tb count now).2
    = (bucket_Available tb now).1 - Z.min count (bucket_Available tb now).1.
Proof.
  intros Hok Hc. destruct (adjust_ok tb now Hok) as [Hav _].
  unfold bucket_TakeAvailable, bucket_Available. cbn [fst].
  destruct (count <=? 0) eqn:E0; [lia|].
  destruct (availableTokens (adjustAvailableTokens tb now) <=? 0) eqn:E1;
    cbn [snd availableTokens]; lia.
Qed.

(** X11. [Create] on an identity that already has a bucket neither resets
    nor re-creates it: when the store holds a well-formed snapshot with a
    consumed amount [c > 0], that amount is debited from the existing bucket
    once more (as far as it has tokens), whatever config was loaded. *)
Theorem Create_registered_replays_snapshot (id : bytes) (now : Z)
        (r r1 : PersistedRateLimiter) (cfg : Config) (l : loc) (tb : Bucket)
        (val : bytes) (c : Z) :
  Create_checkBlacklist id now r = Returns None r1 ->
  Create_loadConfig id r1 = Returns (inr cfg) r1 ->
  initialized r1 !! id = Some l -> heap r1 !! l = Some tb -> bucket_ok tb now ->
  db_Get (db r1) (Key RateLimitCapacity (prefix r1) id) = (val, None) ->
  length val = 16%nat -> Uint64 (take 8 val) = Some c -> 0 < c < 2 ^ 63 ->
  exists r' tb',
    Create id now r = Returns None r' /\
    initialized r' = initialized r1 /\ heap r' !! l = Some tb' /\
    capacity tb' = capacity tb /\
    availableTokens tb'
      = (bucket_Available tb now).1 - Z.min c (bucket_Available tb now).1.
Proof.
  intros Hc Hl Hi Hh Hok Hg Hlen Hu Hrange.
  pose proof (getOrCreate_registered id cfg now r1 l Hi) as Hget.
  rewrite (Create_steps _ _ _ _ _ _ _ _ Hc Hl Hget).
  rewrite (loadCapacity_wellformed id l now r1 tb val c Hg Hlen Hu Hh).
  rewrite (int64_id c) by lia.
  eexists _, _. split; [reflexivity|]. split; [reflexivity|].
  split; [eapply heap_insert_lookup; exact Hh|].
  split; [apply take_capacity|]. apply take_positive; [exact Hok | lia].
Qed.

(** X12. A first [Create] with no snapshot in the store: once the
    blacklist check and the config load pass, the identity gets a bucket
    built from the effective config (the stored override, else the default),
    at full capacity; the store is not written and nothing is logged. *)
Theorem Create_without_snapshot_full_capacity (id : bytes) (now : Z)
        (r r1 : PersistedRateLimiter) (cfg : Config) (val : bytes) :
  Create_checkBlacklist id now r = Returns None r1 ->
  Create_loadConfig id r1 = Returns (inr cfg) r1 ->
  initialized r1 !! id = None -> valid_config cfg = true ->
  db_Get (db r1) (Key RateLimitCapacity (prefix r1) id) = (val, Some ErrNotFound) ->
  exists r' r'',
    Create id now r = Returns None r' /\
    db r' = db r1 /\ logged r' = logged r1 /\
    Available id now r' = Returns (int64 (Capacity cfg)) r''.
Proof.
  intros Hc Hl Hi Hv Hg.
  destruct (Create_fresh_full id now r r1 cfg val Hc Hl Hi Hv Hg)
    as (tb & _ & Hrun & r'' & Ha).
  exists (registered_with id tb r1), r''. auto.
Qed.

(** X13. A stored blacklist value shorter than 8 bytes makes [Create]
    panic on the bounds check of the big-endian decoder; it is neither
    treated as absent nor reported as an error. *)
Theorem Create_short_blacklist_record_panics (id : bytes) (now : Z)
        (r : PersistedRateLimiter) (val : bytes) :
  faulty (db r) OpGet (Key RateLimitBlacklist (prefix r) id) = false ->
  data (db r) !! Key RateLimitBlacklist (prefix r) id = Some val ->
  (length val < 8)%nat ->
  Create id now r = Panics IndexOutOfRange.
Proof.
  intros Hf Hd Hlen. unfold Create, bind at 1.
  unfold Create_checkBlacklist, bind, get_limiter, Get, db_Get. rewrite Hf, Hd.
  rewrite decide_True by discriminate.
  unfold Uint64. destruct (Nat.ltb_spec (length val) 8); [reflexivity | lia].
Qed.

(** ** How the methods compose *)

(** X14. [Available] is a pure query: made a second time at the same
    clock reading it returns the same value and leaves the limiter exactly
    as the first call left it. *)
Theorem Available_twice (id : bytes) (now : Z) (r r1 : PersistedRateLimiter) (a : Z) :
  Available id now r = Returns a r1 ->
  Available id now r1 = Returns a r1.
Proof.
  assert (Hreg : forall (r0 : PersistedRateLimiter) (l : loc) (tb : Bucket),
             initialized r0 !! id = Some l -> heap r0 !! l = Some tb ->
             Available id now r0 = Returns a r1 ->
             Available id now r1 = Returns a r1).
  { intros r0 l tb Hi Hl. rewrite (Available_registered _ _ _ _ _ Hi Hl).
    intros H. injection H as <- <-.
    erewrite Available_registered;
      [| exact Hi | cbn [heap set_heap]; eapply heap_insert_lookup; exact Hl].
    rewrite adjust_idempotent. cbn [heap set_heap].
    rewrite list_insert_insert_eq. reflexivity. }
  destruct (initialized r !! id) as [l|] eqn:Hi.
  - destruct (heap r !! l) as [tb|] eqn:Hl; [now apply (Hreg r l tb)|].
    unfold Available, bind, get_limiter.
    rewrite (getOrCreate_registered _ _ _ _ _ Hi). unfold call. now rewrite Hl.
  - destruct (newBucket (defaultConfig r) now) as [tb0|] eqn:Hnew.
    + rewrite (Available_unregistered _ _ _ _ Hi Hnew).
      apply (Hreg _ (length (heap r)) tb0); apply registered_with_lookup.
    + unfold Available, bind, get_limiter, getOrCreate. now rewrite Hi, Hnew.
Qed.

(** ** Checkpoints across a restart *)

Lemma store_clocked_same (id : bytes) (bucket : option loc) (now : Z) :
  store_clocked id bucket now now = store id bucket now.
Proof. reflexivity. Qed.

Lemma TakeAvailable_clocked_same (id : bytes) (count now : Z) :
  TakeAvailable_clocked id count now now now now = TakeAvailable id count now.
Proof. reflexivity. Qed.

Lemma store_clocked_spec (id : bytes) (l : loc) (t_avail t_stamp : Z)
      (r : PersistedRateLimiter) (tb : Bucket) :
  heap r !! l = Some tb ->
  let tb' := adjustAvailableTokens tb t_avail in
  let r1 := set_heap (<[l := tb']> (heap r)) r in
  let key := Key RateLimitCapacity (prefix r) id in
  let buf := PutUint64 (uint64 (int64 (capacity tb - availableTokens tb')))
             ++ PutUint64 (uint64 (Unix t_stamp)) in
  store_clocked id (Some l) t_avail t_stamp r =
    if faulty (db r) OpPut key
    then Returns (Some (ErrWriteCapacity (capacity tb) id ErrIO)) r1
    else Returns None (set_db (mkDB (<[key := buf]> (data (db r))) (faulty (db r))) r1).
Proof.
  intros Hl. unfold store_clocked, bind.
  rewrite (read_Some _ _ _ _ Hl), (call_Some _ _ _ _ Hl).
  unfold get_limiter, Put, db_Put. cbn [fst snd bucket_Available db prefix set_heap].
  destruct (faulty (db r) OpPut (Key RateLimitCapacity (prefix r) id)) eqn:Hf.
  - erewrite read_Some by (cbn [heap set_db]; eapply heap_insert_lookup; eauto).
    reflexivity.
  - reflexivity.
Qed.

(** A debit on a full bucket at [t_take], then the refill of a later
    reading [t_avail]: the ticks between the two readings come back. *)
Lemma full_take_then_available (tb : Bucket) (count t_take t_avail : Z) :
  availableTokens tb = capacity tb -> 0 < capacity tb ->
  0 < fillInterval tb -> 0 < quantum tb ->
  0 <= count -> t_take <= t_avail ->
  let taken := (bucket_TakeAvailable tb count t_take).1 in
  let tb1 := (bucket_TakeAvailable tb count t_take).2 in
  taken = Z.min count (capacity tb) /\
  capacity tb1 = capacity tb /\
  availableTokens (adjustAvailableTokens tb1 t_avail)
    = Z.min (capacity tb)
            (capacity tb - taken
             + (currentTick tb t_avail - currentTick tb t_take) * quantum tb).
Proof.
  intros Hfull Hcap Hfi Hq Hcount Hle.
  assert (Hticks : 0 <= (currentTick tb t_avail - currentTick tb t_take) * quantum tb).
  { apply Z.mul_nonneg_nonneg; [|lia].
    assert (currentTick tb t_take <= currentTick tb t_avail); [|lia].
    unfold currentTick. apply Z.quot_le_mono; lia. }
  unfold bucket_TakeAvailable.
  destruct (count <=? 0) eqn:E0; cbn [fst snd].
  - split; [lia|]. split; [reflexivity|].
    unfold adjustAvailableTokens. cbn [availableTokens].
    rewrite Hfull, Z.leb_refl. lia.
  - rewrite (adjust_full tb t_take Hfull).
    destruct (capacity tb <=? 0) eqn:E1; [lia|]. cbn [fst snd].
    split; [reflexivity|]. split; [reflexivity|].
    unfold adjustAvailableTokens at 1. unfold currentTick.
    cbn [startTime fillInterval latestTick capacity availableTokens quantum].
    change (capacity (adjustAvailableTokens tb t_take)) with (capacity tb).
    change (startTime (adjustAvailableTokens tb t_take)) with (startTime tb).
    change (fillInterval (adjustAvailableTokens tb t_take)) with (fillInterval tb).
    change (quantum (adjustAvailableTokens tb t_take)) with (quantum tb).
    change (latestTick (adjustAvailableTokens tb t_take))
      with (Z.quot (t_take - startTime tb) (fillInterval tb)).
    destruct (capacity tb <=? capacity tb - Z.min count (capacity tb)) eqn:E2; [lia|].
    reflexivity.
Qed.

(** The first [TakeAvailable] on an unseen identity over a store that takes
    the write: what is returned and what the checkpoint holds. *)
Lemma TakeAvailable_clocked_fresh (id : bytes) (count t_new t_take t_avail t_stamp : Z)
      (r : PersistedRateLimiter) (tb : Bucket) :
  initialized r !! id = None -> newBucket (defaultConfig r) t_new = Some tb ->
  faulty (db r) OpPut (Key RateLimitCapacity (prefix r) id) = false ->
  let tb1 := (bucket_TakeAvailable tb count t_take).2 in
  let left := availableTokens (adjustAvailableTokens tb1 t_avail) in
  exists r1,
    TakeAvailable_clocked id count t_new t_take t_avail t_stamp r
      = Returns (bucket_TakeAvailable tb count t_take).1 r1 /\
    faulty (db r1) = faulty (db r) /\
    data (db r1) =
      <[Key RateLimitCapacity (prefix r) id :=
          PutUint64 (uint64 (int64 (capacity tb1 - left))) ++ PutUint64 (uint64 (Unix t_stamp))]>
        (data (db r)).
Proof.
  intros Hi Hnew Hput.
  destruct (registered_with_lookup id tb r) as [_ Hl0].
  unfold TakeAvailable_clocked, bind, get_limiter.
  rewrite (getOrCreate_fresh _ _ _ _ _ Hi Hnew).
  fold (registered_with id tb r).
  rewrite (call_Some _ _ _ _ Hl0).
  destruct (bucket_TakeAvailable tb count t_take) as [taken tb1] eqn:Ht. cbn [fst snd].
  set (r0 := set_heap _ (registered_with id tb r)).
  assert (Hl1 : heap r0 !! length (heap r) = Some tb1)
    by (eapply heap_insert_lookup; exact Hl0).
  rewrite (store_clocked_spec id _ t_avail t_stamp r0 tb1 Hl1).
  cbn [r0 db prefix set_heap registered_with set_initialized].
  rewrite Hput. eexists. split; [reflexivity|]. split; reflexivity.
Qed.

(** X15. What the checkpoint of [TakeAvailable] carries across a restart.
    The first [TakeAvailable(id, count)] on an unseen identity reads the
    clock four times: the constructor ([t_new]), the debit ([t_take]), and in
    [store] the [bucket.Available] of the checkpoint ([t_avail]) and the
    timestamp ([t_stamp]). It returns [min(count, capacity)], and the
    checkpoint records the consumption as [store] sees it, that is after the
    refill of the ticks between [t_take] and [t_avail]. A new limiter built
    by [NewPersisted] over the same store, prefix and default config
    restores that with [Create(id)], at whatever clock reading:
    [Available(id)] at the reading of the [Create] is
    [min(capacity, capacity - taken + ticks * quantum)], which is the
    capacity minus what was taken only when no tick falls between the debit
    and the checkpoint. The timestamp plays no part. *)
Theorem restart_round_trip (id : bytes) (count t_new t_take t_avail t_stamp : Z)
        (r : PersistedRateLimiter) :
  Inj (=) (=) kind_tag ->
  initialized r !! id = None ->
  valid_config (defaultConfig r) = true ->
  faulty (db r) OpPut (Key RateLimitCapacity (prefix r) id) = false ->
  faulty (db r) OpGet (Key RateLimitCapacity (prefix r) id) = false ->
  faulty (db r) OpGet (Key RateLimitBlacklist (prefix r) id) = false ->
  faulty (db r) OpGet (Key RateLimitConfig (prefix r) id) = false ->
  data (db r) !! Key RateLimitBlacklist (prefix r) id = None ->
  data (db r) !! Key RateLimitConfig (prefix r) id = None ->
  0 <= count ->
  t_take <= t_avail ->
  let cap := int64 (Capacity (defaultConfig r)) in
  let ticks := Z.quot (t_avail - t_new) (int64 (Interval (defaultConfig r)))
               - Z.quot (t_take - t_new) (int64 (Interval (defaultConfig r))) in
  let taken := Z.min count cap in
  let left := Z.min cap (cap - taken + ticks * int64 (Quantum (defaultConfig r))) in
  (ticks = 0 -> left = cap - taken) /\
  exists r1,
    TakeAvailable_clocked id count t_new t_take t_avail t_stamp r = Returns taken r1 /\
    forall t, exists r2 r3,
      Create id t (NewPersisted (db r1) (defaultConfig r) (prefix r)) = Returns None r2 /\
      Available id t r2 = Returns left r3.
Proof.
  intros Hinj Hi Hv Hput Hgetc Hgetb Hgetf Hbl Hcf Hcount Hle cap ticks taken left.
  pose proof (newBucket_Some _ t_new Hv) as Hnew. fold cap in Hnew.
  set (tb0 := mkBucket t_new cap _ _ cap 0) in *.
  assert (Hcap : 0 < cap < 2 ^ 63).
  { pose proof (int64_range (Capacity (defaultConfig r))).
    unfold valid_config in Hv. apply andb_prop in Hv as [Hv' _].
    apply andb_prop in Hv' as [_ Hc]. unfold cap. lia. }
  assert (Hfq : 0 < fillInterval tb0 /\ 0 < quantum tb0).
  { unfold valid_config in Hv. apply andb_prop in Hv as [Hv' Hq].
    apply andb_prop in Hv' as [Hfi _]. cbn [tb0 fillInterval quantum]. lia. }
  destruct Hfq as [Hfi Hq].
  destruct (full_take_then_available tb0 count t_take t_avail
              eq_refl ltac:(cbn; lia) Hfi Hq Hcount Hle) as (Htaken & Hcap1 & Hleft).
  cbn [capacity tb0] in Htaken, Hcap1, Hleft. fold taken in Htaken.
  rewrite Htaken in Hleft.
  change (currentTick tb0 t_avail - currentTick tb0 t_take) with ticks in Hleft.
  change (quantum tb0) with (int64 (Quantum (defaultConfig r))) in Hleft.
  fold left in Hleft.
  assert (Hticks : 0 <= ticks * int64 (Quantum (defaultConfig r))).
  { apply Z.mul_nonneg_nonneg; [|cbn [tb0 quantum] in Hq; lia].
    unfold ticks. cbn [tb0 fillInterval] in Hfi.
    assert (Z.quot (t_take - t_new) (int64 (Interval (defaultConfig r)))
            <= Z.quot (t_avail - t_new) (int64 (Interval (defaultConfig r))));
      [apply Z.quot_le_mono; lia | lia]. }
  assert (Hrange : 0 <= left <= cap) by (unfold left, taken; lia).
  split; [intros Hz; unfold left; rewrite Hz; unfold taken; lia|].
  destruct (TakeAvailable_clocked_fresh id count t_new t_take t_avail t_stamp r tb0
              Hi Hnew Hput) as (r1 & Hrun & Hf1 & Hdata).
  rewrite Htaken in Hrun. rewrite Hcap1, Hleft in Hdata.
  set (consumed := cap - left) in *.
  rewrite (int64_id consumed), (uint64_id consumed) in Hdata by (unfold consumed; lia).
  exists r1. split; [exact Hrun|].
  intros t.
  set (rs := NewPersisted (db r1) (defaultConfig r) (prefix r)).
  set (ckey := Key RateLimitCapacity (prefix r) id) in *.
  assert (Hbc : ckey <> Key RateLimitBlacklist (prefix r) id)
    by (apply Key_kind_ne; [exact Hinj | discriminate]).
  assert (Hfc : ckey <> Key RateLimitConfig (prefix r) id)
    by (apply Key_kind_ne; [exact Hinj | discriminate]).
  assert (Hc1 : Create_checkBlacklist id t rs = Returns None rs).
  { apply checkBlacklist_absent; cbn [rs db prefix NewPersisted].
    - now rewrite Hf1.
    - rewrite Hdata. now rewrite lookup_insert_ne. }
  assert (Hl1 : Create_loadConfig id rs = Returns (inr (defaultConfig r)) rs).
  { unfold Create_loadConfig, bind, get_limiter, Get.
    cbn [rs db prefix defaultConfig NewPersisted].
    rewrite db_Get_absent; [reflexivity | now rewrite Hf1 |].
    rewrite Hdata. now rewrite lookup_insert_ne. }
  pose proof (newBucket_Some _ t Hv) as Hnewt. fold cap in Hnewt.
  set (tbn := mkBucket t cap _ _ cap 0) in *.
  assert (Hsn : settled tbn t).
  { split; [symmetry; apply (currentTick_start tbn) | cbn; lia]. }
  assert (His : initialized rs !! id = None) by apply lookup_empty.
  pose proof (getOrCreate_fresh id _ t rs tbn His Hnewt) as Hg.
  fold (registered_with id tbn rs) in Hg.
  destruct (registered_with_lookup id tbn rs) as [Hi2 Hl2].
  rewrite (Create_steps _ _ _ _ _ _ _ _ Hc1 Hl1 Hg).
  rewrite (loadCapacity_snapshot id _ t (registered_with id tbn rs) tbn
             consumed (uint64 (Unix t_stamp)));
    [| unfold db_Get; cbn [db prefix registered_with set_initialized set_heap rs NewPersisted];
       fold ckey; rewrite Hf1, Hgetc, Hdata, lookup_insert_eq; reflexivity
     | exact Hl2].
  rewrite (uint64_id consumed), (int64_id consumed) by (unfold consumed; lia).
  pose proof (take_settled tbn consumed t Hsn ltac:(cbn; lia)
                ltac:(unfold consumed; lia)) as Htake.
  destruct (bucket_TakeAvailable tbn consumed t) as [taken' tb']. cbn [fst snd] in *.
  destruct Htake as (Htaken' & Hav' & Hcap' & Hs').
  cbn [availableTokens capacity tbn] in Htaken', Hav', Hcap'.
  eexists _, _. split; [reflexivity|].
  erewrite Available_registered;
    [| exact Hi2 | cbn [heap set_heap]; eapply heap_insert_lookup; exact Hl2].
  rewrite (adjust_settled _ _ Hs'), Hav'. f_equal. unfold consumed in *. lia.
Qed.

(** X16. The ban is enforced by [Create] only. After a successful
    [Remove(id, D)] with [D <> 0], at a time inside the ban [Create(id)] is
    refused, yet [TakeAvailable(id, n)] at that same time creates a bucket
    from the default config and hands out [min(n, capacity)] tokens. *)
Theorem ban_does_not_stop_TakeAvailable (id : bytes) (D T t n : Z)
        (r r1 : PersistedRateLimiter) :
  Inj (=) (=) kind_tag ->
  D <> 0 ->
  Remove id D T r = Returns None r1 ->
  faulty (db r) OpGet (Key RateLimitBlacklist (prefix r) id) = false ->
  valid_config (defaultConfig r) = true ->
  0 <= Unix t <= Unix (T + D) -> Unix (T + D) < 2 ^ 64 ->
  0 <= n ->
  Create id t r1 = Returns (Some (ErrBlacklisted id)) r1 /\
  exists r2,
    TakeAvailable id n t r1 =
      Returns (Z.min n (int64 (Capacity (defaultConfig r)))) r2.
Proof.
  intros Hinj HD Hrem Hget Hv Ht HTD Hn.
  destruct (Remove_blacklist_written id D T r r1 HD Hrem)
    as (Hp & Hdc & Hfl & Hi1 & Hdata).
  split.
  - set (bkey := Key RateLimitBlacklist (prefix r) id) in *.
    assert (Hbc : bkey <> Key RateLimitCapacity (prefix r) id)
      by (apply Key_kind_ne; [exact Hinj | discriminate]).
    assert (Hrec : data (db r1) !! Key RateLimitBlacklist (prefix r1) id
                   = Some (PutUint64 (uint64 (Unix (T + D))))).
    { rewrite Hp. fold bkey. rewrite (Hdata bkey Hbc). apply lookup_insert_eq. }
    assert (Hget1 : faulty (db r1) OpGet (Key RateLimitBlacklist (prefix r1) id) = false)
      by (now rewrite Hfl, Hp).
    pose proof (checkBlacklist_present id t r1 _ _ Hget1 Hrec (Uint64_PutUint64 _)) as Hchk.
    rewrite !uint64_id in Hchk by (try rewrite uint64_id; lia).
    unfold Create, bind. rewrite Hchk.
    destruct (Z.leb_spec (Unix t) (Unix (T + D))); [reflexivity | lia].
  - assert (Hv1 : valid_config (defaultConfig r1) = true) by (now rewrite Hdc).
    pose proof (newBucket_Some _ t Hv1) as Hnew.
    set (cap := int64 (Capacity (defaultConfig r1))) in *.
    set (tb0 := mkBucket t cap _ _ cap 0) in *.
    assert (Hcap : 0 < cap).
    { unfold valid_config in Hv1. apply andb_prop in Hv1 as [Hv' _].
      apply andb_prop in Hv' as [_ Hc]. unfold cap. lia. }
    assert (Hs0 : settled tb0 t).
    { split; [symmetry; apply (currentTick_start tb0) | cbn; lia]. }
    destruct (registered_with_lookup id tb0 r1) as [Hi0 Hl0].
    destruct (TakeAvailable_registered id n t _ _ tb0 Hi0 Hl0) as (r2 & Hrun & _).
    pose proof (take_settled tb0 n t Hs0 ltac:(cbn; lia) Hn) as Htake.
    destruct (bucket_TakeAvailable tb0 n t) as [taken tb1]. cbn [fst snd] in *.
    destruct Htake as (Htaken & _).
    exists r2. rewrite (TakeAvailable_unregistered _ _ _ _ _ Hi1 Hnew), Hrun.
    rewrite Htaken. cbn [availableTokens tb0]. unfold cap. now rewrite Hdc.
Qed.

Lemma take_parameters (tb : Bucket) (count now : Z) :
  let tb' := (bucket_TakeAvailable tb count now).2 in
  capacity tb' = capacity tb /\ quantum tb' = quantum tb /\
  fillInterval tb' = fillInterval tb.
Proof.
  unfold bucket_TakeAvailable. destruct (count <=? 0); [auto|].
  destruct (_ <=? 0); auto.
Qed.

Lemma loadCapacity_keeps_parameters (id : bytes) (l : loc) (now : Z)
      (r r' : PersistedRateLimiter) (res : option error) (tb : Bucket) :
  heap r !! l = Some tb ->
  Create_loadCapacity id l now r = Returns res r' ->
  initialized r' = initialized r /\
  exists tb', heap r' !! l = Some tb' /\ capacity tb' = capacity tb /\
              quantum tb' = quantum tb /\ fillInterval tb' = fillInterval tb.
Proof.
  intros Hl. unfold Create_loadCapacity, bind, get_limiter, Get.
  destruct (db_Get _ _) as [val err].
  destruct (decide (err = Some ErrNotFound));
    [intros H; injection H as _ <-; eauto 10|].
  destruct (decide (length val <> 16%nat));
    [intros H; injection H as _ <-; cbn; eauto 10|].
  destruct (Uint64 (take 8 val)) as [c|]; [|discriminate].
  rewrite (call_Some _ _ _ _ Hl). intros H; injection H as _ <-.
  split; [reflexivity|]. eexists. split; [eapply heap_insert_lookup; exact Hl|].
  apply take_parameters.
Qed.

(** X17. [Create] never replaces or resizes a bucket that is already
    registered: whatever the store holds (a config override included) and
    whatever [Create] returns, the identity keeps the same bucket object
    with the same capacity, quantum and fill interval. *)
Theorem Create_keeps_existing_bucket (id : bytes) (now : Z)
        (r r' : PersistedRateLimiter) (res : option error) (l : loc) (tb : Bucket) :
  initialized r !! id = Some l -> heap r !! l = Some tb ->
  Create id now r = Returns res r' ->
  initialized r' !! id = Some l /\
  exists tb', heap r' !! l = Some tb' /\ capacity tb' = capacity tb /\
              quantum tb' = quantum tb /\ fillInterval tb' = fillInterval tb.
Proof.
  intros Hi Hl. unfold Create, bind at 1.
  destruct (Create_checkBlacklist id now r) as [banned r1|] eqn:Hc; [|discriminate].
  destruct (wp_returns _ _ _ _ _ _ (checkBlacklist_wp (fun _ => True) id now r I) Hc)
    as (d & -> & _).
  destruct banned; [intros H; injection H as _ <-; eauto 10|].
  unfold bind at 1.
  destruct (Create_loadConfig id (set_db d r)) as [[e1|cfg] r2|] eqn:Hcfg; [| |discriminate].
  - rewrite (loadConfig_state _ _ _ _ Hcfg). intros H; injection H as _ <-. eauto 10.
  - rewrite (loadConfig_state _ _ _ _ Hcfg). unfold bind.
    rewrite (getOrCreate_registered id cfg now (set_db d r) l Hi).
    intros H.
    destruct (loadCapacity_keeps_parameters id l now (set_db d r) r' res tb Hl H)
      as [Hi' Htb].
    split; [rewrite Hi'; exact Hi | exact Htb].
Qed.

Lemma Remove_zero_frame (id : bytes) (now : Z) (r r2 : PersistedRateLimiter) :
  Remove id 0 now r = Returns None r2 ->
  prefix r2 = prefix r /\ defaultConfig r2 = defaultConfig r /\
  faulty (db r2) = faulty (db r) /\ initialized r2 !! id = None /\
  forall k, k <> Key RateLimitCapacity (prefix r) id ->
            data (db r2) !! k = data (db r) !! k.
Proof.
  unfold Remove, bind at 1. rewrite decide_False by (intros H; now apply H).
  cbn [ret]. unfold bind at 1 2, get_limiter.
  destruct (initialized r !! id) as [l|] eqn:Hi.
  - set (r0 := set_initialized _ _).
    destruct (heap r0 !! l) as [tb|] eqn:Hl.
    + rewrite (store_spec id l now r0 tb Hl).
      destruct (faulty (db r0) OpPut (Key RateLimitCapacity (prefix r0) id));
        [discriminate|].
      intros H; injection H as <-. cbn.
      repeat split; [apply lookup_delete_eq|].
      intros k Hk. now rewrite lookup_insert_ne by congruence.
    + unfold store, bind, read. rewrite Hl. discriminate.
  - intros H; injection H as <-. cbn. repeat split. apply lookup_delete_eq.
Qed.

(** X18. A reconfiguration is not durable. [UpdateConfig] stores nothing,
    so once the identity has been removed (without ban) and is created
    again, with no config override in the store, its bucket is built from
    the default config: the capacity given to [UpdateConfig] is gone. *)
Theorem reconfiguration_not_durable (id : bytes) (config : Config) (t0 t1 t2 : Z)
        (r r1 r2 r3 : PersistedRateLimiter) (res : option error) :
  Inj (=) (=) kind_tag ->
  limiter_ok r t0 ->
  faulty (db r) OpGet (Key RateLimitBlacklist (prefix r) id) = false ->
  faulty (db r) OpGet (Key RateLimitConfig (prefix r) id) = false ->
  data (db r) !! Key RateLimitBlacklist (prefix r) id = None ->
  data (db r) !! Key RateLimitConfig (prefix r) id = None ->
  UpdateConfig id config t0 r = Returns res r1 ->
  Remove id 0 t1 r1 = Returns None r2 ->
  Create id t2 r2 = Returns None r3 ->
  exists l tb,
    initialized r3 !! id = Some l /\ heap r3 !! l = Some tb /\
    capacity tb = int64 (Capacity (defaultConfig r)).
Proof.
  intros Hinj Hok Hgetb Hgetf Hbl Hcf Hupd Hrem Hcre.
  destruct (wp_returns _ _ _ _ _ _ (UpdateConfig_wp id config t0 r Hok) Hupd)
    as (_ & _ & Hdb1 & _ & Hp1 & Hdc1).
  destruct (Remove_zero_frame id t1 r1 r2 Hrem) as (Hp2 & Hdc2 & Hf2 & Hi2 & Hdata).
  rewrite Hp1, Hdb1 in *.
  assert (Hcb : Key RateLimitBlacklist (prefix r) id <> Key RateLimitCapacity (prefix r) id)
    by (apply Key_kind_ne; [exact Hinj | discriminate]).
  assert (Hcc : Key RateLimitConfig (prefix r) id <> Key RateLimitCapacity (prefix r) id)
    by (apply Key_kind_ne; [exact Hinj | discriminate]).
  assert (Hc2 : Create_checkBlacklist id t2 r2 = Returns None r2).
  { apply checkBlacklist_absent; rewrite Hp2.
    - now rewrite Hf2.
    - now rewrite (Hdata _ Hcb). }
  assert (Hl2 : Create_loadConfig id r2 = Returns (inr (defaultConfig r)) r2).
  { unfold Create_loadConfig, bind, get_limiter, Get. rewrite Hp2.
    rewrite db_Get_absent; [now rewrite Hdc2, Hdc1 | now rewrite Hf2 |].
    now rewrite (Hdata _ Hcc). }
  unfold Create, bind in Hcre. rewrite Hc2, Hl2 in Hcre.
  unfold getOrCreate in Hcre. rewrite Hi2 in Hcre.
  destruct (newBucket (defaultConfig r) t2) as [tbn|] eqn:Hnew; [|discriminate].
  fold (registered_with id tbn r2) in Hcre.
  destruct (registered_with_lookup id tbn r2) as [Hi3 Hl3].
  destruct (loadCapacity_keeps_parameters _ _ _ _ _ _ tbn Hl3 Hcre)
    as (Hi' & tb' & Hl' & Hcap & _).
  destruct (newBucket_inv _ _ _ Hnew) as (_ & _ & Hcapn & _).
  exists (length (heap r2)), tb'. rewrite Hi'. split; [exact Hi3|].
  split; [exact Hl'|]. now rewrite Hcap.
Qed.

End Properties.

(** * The properties on the concrete limiters *)

#[local] Existing Instance ex_imports.

Lemma ex_kind_tag_inj : Inj (=) (=) (@kind_tag ex_imports).
Proof. intros [] [] Heq; (reflexivity || discriminate Heq). Qed.

(** alice, registered by [Create] with a full bucket, takes 7 then asks
    for 5 of her 10 tokens. *)
Lemma TakeAvailable_conservation_witness :
  let tb := mkBucket (5 * second) 10 1 second 10 0 in
  bucketFor alice (5 * second) ex_created = Some tb /\
  (bucket_Available tb (5 * second)).1 = capacity tb /\
  Forall (Z.le 0) [7; 5] /\
  (exists takens r',
     takeSeq alice (5 * second) [7; 5] ex_created = Returns takens r' /\
     Forall2 (fun taken n => 0 <= taken <= n) takens [7; 5] /\
     exists r'', Available alice (5 * second) r' = Returns (capacity tb - total takens) r'') /\
  (availableTokens tb = capacity tb -> forall t, (bucket_Available tb t).1 = capacity tb) /\
  (initialized ex_created !! alice = None ->
   availableTokens tb = capacity tb /\
   capacity tb = int64 (Capacity (defaultConfig ex_created))).
Proof.
  intros tb.
  split; [vm_compute; reflexivity|].
  split; [vm_compute; reflexivity|].
  split; [repeat constructor; lia|].
  apply (TakeAvailable_conservation alice (5 * second) [7; 5] ex_created tb).
  - vm_compute; reflexivity.
  - vm_compute; reflexivity.
  - repeat constructor; lia.
Defined.

(** alice takes 7 tokens while the store refuses writes. *)
Lemma TakeAvailable_persist_failure_witness :
  bucketFor alice (5 * second) ex_readonly
    = Some (mkBucket (5 * second) 10 1 second 10 0) /\
  exists r',
    TakeAvailable alice 7 (5 * second) ex_readonly = Returns 7 r' /\
    data (db r') = data (db ex_readonly) /\
    exists e, kind_of e = PersistenceError /\
              logged r' = logged ex_readonly ++ [LogError e].
Proof.
  split; [vm_compute; reflexivity|].
  destruct (TakeAvailable_persist_failure_logged_only alice 7 (5 * second) ex_readonly
              (mkBucket (5 * second) 10 1 second 10 0))
    as (r' & l & Hrun & _ & _ & Hfail & _).
  - vm_compute; reflexivity.
  - exists r'. split; [exact Hrun|]. apply Hfail. vm_compute; reflexivity.
Defined.

(** bob, banned until second 1060, asks for a bucket at second 1030. *)
Lemma Create_blacklisted_no_effect_witness :
  Create bob (1030 * second) ex_banned = Returns (Some (ErrBlacklisted bob)) ex_banned /\
  kind_of (ErrBlacklisted bob) = BlacklistedError /\
  ex_banned = ex_banned /\ ErrBlacklisted bob = ErrBlacklisted bob /\
  exists val deadline,
    db_Get (db ex_banned) (Key RateLimitBlacklist (prefix ex_banned) bob) = (val, None) /\
    Uint64 val = Some deadline /\ uint64 (Unix (1030 * second)) <= deadline.
Proof.
  split; [vm_compute; reflexivity|].
  split; [reflexivity|].
  apply (Create_blacklisted_no_effect bob (1030 * second) ex_banned ex_banned
           (ErrBlacklisted bob)).
  - vm_compute; reflexivity.
  - reflexivity.
Defined.

Lemma Create_blacklist_read_error_witness :
  faulty (db ex_unreadable) OpGet (Key RateLimitBlacklist (prefix ex_unreadable) bob) = true /\
  Create bob (5 * second) ex_unreadable = Panics IndexOutOfRange.
Proof.
  split; [reflexivity|].
  apply (Create_blacklist_read_error_decodes bob (5 * second) ex_unreadable).
  reflexivity.
Defined.

Lemma Create_capacity_read_error_witness :
  let r := ex_capacity_unreadable in
  let r2 := registered_with alice (mkBucket (5 * second) 10 1 second 10 0) r in
  Create_checkBlacklist alice (5 * second) r = Returns None r /\
  Create_loadConfig alice r = Returns (inr ex_config) r /\
  getOrCreate alice ex_config (5 * second) r = Returns 0%nat r2 /\
  faulty (db r) OpGet (Key RateLimitCapacity (prefix r) alice) = true /\
  Create alice (5 * second) r = Returns None (log_Error (LogUnexpectedLength 8 0) r2).
Proof.
  intros r r2.
  split; [vm_compute; reflexivity|].
  split; [vm_compute; reflexivity|].
  split; [vm_compute; reflexivity|].
  split; [vm_compute; reflexivity|].
  apply (Create_capacity_read_error_not_surfaced alice (5 * second) r r r2 ex_config 0%nat).
  - vm_compute; reflexivity.
  - vm_compute; reflexivity.
  - vm_compute; reflexivity.
  - vm_compute; reflexivity.
Defined.

Lemma Create_malformed_snapshot_witness :
  let r := ex_malformed in
  let val := [Byte.x01; Byte.x02; Byte.x03] in
  let r2 := registered_with alice (mkBucket (5 * second) 10 1 second 10 0) r in
  Create_checkBlacklist alice (5 * second) r = Returns None r /\
  Create_loadConfig alice r = Returns (inr ex_config) r /\
  getOrCreate alice ex_config (5 * second) r = Returns 0%nat r2 /\
  db_Get (db r) (Key RateLimitCapacity (prefix r) alice) = (val, None) /\
  length val <> 16%nat /\
  exists r',
    Create alice (5 * second) r = Returns None r' /\
    db r' = db r /\
    logged r' = logged r ++ [LogUnexpectedLength 8 3] /\
    exists tb, heap r' !! 0%nat = Some tb /\ availableTokens tb = capacity tb /\
               capacity tb = 10.
Proof.
  intros r val r2.
  split; [vm_compute; reflexivity|].
  split; [vm_compute; reflexivity|].
  split; [vm_compute; reflexivity|].
  split; [vm_compute; reflexivity|].
  split; [vm_compute; discriminate|].
  destruct (Create_malformed_snapshot_fail_open alice (5 * second) r r r2 ex_config 0%nat val)
    as (r' & Hrun & Hdb & Hlog & _ & Hnew & _).
  - vm_compute; reflexivity.
  - vm_compute; reflexivity.
  - vm_compute; reflexivity.
  - vm_compute; reflexivity.
  - vm_compute; discriminate.
  - exists r'. split; [exact Hrun|]. split; [exact Hdb|]. split; [exact Hlog|].
    apply Hnew. vm_compute; reflexivity.
Defined.

Lemma UpdateConfig_unregistered_witness :
  initialized ex_limiter !! alice = None /\
  UpdateConfig alice ex_small (5 * second) ex_limiter = Panics NilDereference.
Proof.
  split; [vm_compute; reflexivity|].
  apply (UpdateConfig_unregistered_panics alice ex_small (5 * second) ex_limiter).
  vm_compute; reflexivity.
Defined.

(** alice, 7 tokens consumed out of 10, is moved to a capacity of 5: the
    new bucket has 5 tokens consumed. *)
Lemma UpdateConfig_continuity_witness :
  let tb := mkBucket (5 * second) 10 1 second 3 0 in
  initialized ex_active !! alice = Some 0%nat /\
  heap ex_active !! 0%nat = Some tb /\
  bucket_ok tb (5 * second) /\
  equivalent ex_small tb = false /\ valid_config ex_small = true /\
  exists r' l' tb',
    UpdateConfig alice ex_small (5 * second) ex_active = Returns None r' /\
    initialized r' !! alice = Some l' /\ l' <> 0%nat /\ heap r' !! l' = Some tb' /\
    capacity tb' = int64 (Capacity ex_small) /\
    consumed tb' (5 * second) = Z.min (consumed tb (5 * second)) (int64 (Capacity ex_small)).
Proof.
  intros tb.
  split; [vm_compute; reflexivity|].
  split; [vm_compute; reflexivity|].
  split; [vm_compute; repeat split; discriminate|].
  split; [vm_compute; reflexivity|].
  split; [vm_compute; reflexivity|].
  apply (UpdateConfig_continuity alice ex_small (5 * second) ex_active 0%nat tb).
  - vm_compute; reflexivity.
  - vm_compute; reflexivity.
  - vm_compute; repeat split; discriminate.
  - vm_compute; reflexivity.
  - vm_compute; reflexivity.
Defined.

(** alice, created at second 5 with 7 tokens taken, is removed at second 6
    (one token refilled, 6 consumed) and comes back later with 4 tokens,
    however late. *)
Lemma snapshot_round_trip_witness :
  let tb := mkBucket (5 * second) 10 1 second 3 0 in
  Inj (=) (=) (@kind_tag ex_imports) /\
  initialized ex_active !! alice = Some 0%nat /\
  heap ex_active !! 0%nat = Some tb /\
  bucket_ok tb (6 * second) /\
  faulty (db ex_active) OpPut (Key RateLimitCapacity (prefix ex_active) alice) = false /\
  faulty (db ex_active) OpGet (Key RateLimitCapacity (prefix ex_active) alice) = false /\
  faulty (db ex_active) OpGet (Key RateLimitBlacklist (prefix ex_active) alice) = false /\
  data (db ex_active) !! Key RateLimitBlacklist (prefix ex_active) alice = None /\
  Create_loadConfig alice ex_active = Returns (inr ex_config) ex_active /\
  valid_config ex_config = true /\
  consumed tb (6 * second) <= int64 (Capacity ex_config) /\
  exists r1,
    Remove alice 0 (6 * second) ex_active = Returns None r1 /\
    data (db r1) !! Key RateLimitCapacity (prefix ex_active) alice
      = Some (PutUint64 6 ++ PutUint64 6) /\
    forall t1, 6 * second < t1 ->
      exists r2 r3,
        Create alice t1 r1 = Returns None r2 /\
        Available alice t1 r2 = Returns 4 r3.
Proof.
  intros tb.
  split; [exact ex_kind_tag_inj|].
  split; [vm_compute; reflexivity|].
  split; [vm_compute; reflexivity|].
  split; [vm_compute; repeat split; discriminate|].
  split; [vm_compute; reflexivity|].
  split; [vm_compute; reflexivity|].
  split; [vm_compute; reflexivity|].
  split; [vm_compute; reflexivity|].
  split; [vm_compute; reflexivity|].
  split; [vm_compute; reflexivity|].
  split; [vm_compute; discriminate|].
  destruct (snapshot_round_trip_no_refill alice (6 * second) ex_active 0%nat tb ex_config)
    as (r1 & Hrem & _ & Hrec & _ & _ & Hback).
  - exact ex_kind_tag_inj.
  - vm_compute; reflexivity.
  - vm_compute; reflexivity.
  - vm_compute; repeat split; discriminate.
  - vm_compute; reflexivity.
  - vm_compute; reflexivity.
  - vm_compute; reflexivity.
  - vm_compute; reflexivity.
  - vm_compute; reflexivity.
  - vm_compute; reflexivity.
  - vm_compute; discriminate.
  - exists r1. split; [exact Hrem|]. split; [exact Hrec|].
    intros t1 Ht1. destruct (Hback t1 Ht1) as (r2 & l' & tb' & r3 & Hc & _ & _ & _ & _ & Ha).
    exists r2, r3. split; [exact Hc | exact Ha].
Defined.

(** bob, removed at second 1000 with a ban of 60 seconds: refused at
    second 1060, let in at second 1061. *)
Lemma blacklist_window_closed_witness :
  Inj (=) (=) (@kind_tag ex_imports) /\
  60 * second <> 0 /\
  Remove bob (60 * second) (1000 * second) ex_limiter = Returns None ex_banned /\
  faulty (db ex_limiter) OpGet (Key RateLimitBlacklist (prefix ex_limiter) bob) = false /\
  0 <= Unix (1000 * second + 60 * second) < 2 ^ 64 /\
  0 <= Unix (1060 * second) < 2 ^ 64 /\
  0 <= Unix (1061 * second) < 2 ^ 64 /\
  Create_loadConfig bob ex_limiter = Returns (inr ex_config) ex_limiter /\
  valid_config ex_config = true /\
  Create bob (1060 * second) ex_banned = Returns (Some (ErrBlacklisted bob)) ex_banned /\
  exists r2,
    Create bob (1061 * second) ex_banned = Returns None r2 /\
    data (db r2) !! Key RateLimitBlacklist (prefix ex_limiter) bob = None.
Proof.
  split; [exact ex_kind_tag_inj|].
  split; [vm_compute; discriminate|].
  split; [vm_compute; reflexivity|].
  split; [vm_compute; reflexivity|].
  split; [vm_compute; repeat split; discriminate|].
  split; [vm_compute; repeat split; discriminate|].
  split; [vm_compute; repeat split; discriminate|].
  split; [vm_compute; reflexivity|].
  split; [vm_compute; reflexivity|].
  split.
  - apply (blacklist_window_closed bob (60 * second) (1000 * second) (1060 * second)
             ex_limiter ex_banned ex_config).
    + exact ex_kind_tag_inj.
    + vm_compute; discriminate.
    + vm_compute; reflexivity.
    + vm_compute; reflexivity.
    + vm_compute; repeat split; discriminate.
    + vm_compute; repeat split; discriminate.
    + vm_compute; discriminate.
  - destruct (blacklist_window_closed bob (60 * second) (1000 * second) (1061 * second)
                ex_limiter ex_banned ex_config) as [_ Hlate].
    + exact ex_kind_tag_inj.
    + vm_compute; discriminate.
    + vm_compute; reflexivity.
    + vm_compute; reflexivity.
    + vm_compute; repeat split; discriminate.
    + vm_compute; repeat split; discriminate.
    + destruct Hlate as (r2 & Hc & Hdel).
      * vm_compute; reflexivity.
      * vm_compute; reflexivity.
      * vm_compute; reflexivity.
      * exists r2. split; [exact Hc|]. apply Hdel. vm_compute; reflexivity.
Defined.

(** ** Where the code departs from the specification's wording *)

(** C2, counterexample. A ban of 60 seconds set at second 1000: at second
    1060, which is [T + D], the stated window has ended, yet [Create] still
    fails with the blacklist error, since the check is [deadline >= now]. *)
Lemma blacklist_window_not_half_open :
  ~ blacklist_window_as_stated bob (60 * second) (1000 * second) ex_limiter.
Proof.
  intros Hclaim.
  assert (Hrem : Remove bob (60 * second) (1000 * second) ex_limiter
                 = Returns None ex_banned) by (vm_compute; reflexivity).
  destruct (Hclaim ex_banned Hrem) as [_ Hafter].
  destruct (Hafter (1000 * second + 60 * second)) as (r2 & Hcreate & _).
  - apply Z.le_refl.
  - vm_compute in Hcreate. discriminate Hcreate.
Qed.

(** C4, counterexample. alice has consumed 7 of 10 tokens; moved to a
    config of capacity 5, her new bucket has 5 tokens consumed, not 7. *)
Lemma reconfiguration_caps_consumed :
  ~ reconfiguration_continuity_as_stated alice ex_small (5 * second) ex_active.
Proof.
  intros Hclaim.
  destruct (Hclaim 0%nat (mkBucket (5 * second) 10 1 second 3 0)) as [Hchange _].
  - vm_compute; reflexivity.
  - vm_compute; reflexivity.
  - destruct Hchange as (r' & l' & tb' & Hrun & Hi & Hl & Hc).
    + vm_compute; reflexivity.
    + vm_compute in Hrun. injection Hrun as <-.
      vm_compute in Hi. injection Hi as <-.
      vm_compute in Hl. injection Hl as <-.
      vm_compute in Hc. discriminate Hc.
Qed.

(** ** The further properties on the concrete limiters *)

Lemma ex_active_run :
  TakeAvailable alice 7 (5 * second) ex_limiter = Returns 7 ex_active.
Proof. vm_compute; reflexivity. Qed.

Lemma ex_active_ok : limiter_ok ex_active (5 * second).
Proof.
  assert (Hok : limiter_ok ex_limiter (5 * second)) by apply NewPersisted_ok.
  refine (proj1 (proj1 (wp_returns _ _ _ _ _ _
            (TakeAvailable_wp alice 7 (5 * second) ex_limiter Hok _) ex_active_run))).
  right. reflexivity.
Qed.

Lemma methods_keep_limiter_ok_witness :
  limiter_ok ex_limiter 0 /\ 0 <= 5 * second /\ limiter_ok ex_active (5 * second).
Proof.
  split; [apply NewPersisted_ok|]. split; [vm_compute; discriminate|].
  destruct (methods_keep_limiter_ok ex_limiter 0 (5 * second)) as (_ & _ & Htake & _).
  - apply NewPersisted_ok.
  - vm_compute; discriminate.
  - exact (Htake alice 7 7 ex_active ex_active_run).
Defined.

Lemma methods_leave_other_identities_untouched_witness :
  limiter_ok ex_active (5 * second) /\
  forall taken r',
    TakeAvailable bob 3 (5 * second) ex_active = Returns taken r' ->
    others_untouched bob ex_active r'.
Proof.
  split; [exact ex_active_ok|].
  destruct (methods_leave_other_identities_untouched ex_active (5 * second) bob)
    as (_ & _ & Htake & _).
  - exact ex_active_ok.
  - exact (Htake 3).
Defined.

Lemma TakeAvailable_returns_within_bounds_witness :
  limiter_ok ex_limiter (5 * second) /\
  (is_Some (initialized ex_limiter !! alice) \/ valid_config (defaultConfig ex_limiter) = true) /\
  exists taken r' l tb,
    TakeAvailable alice 7 (5 * second) ex_limiter = Returns taken r' /\
    0 <= taken <= Z.max 0 7 /\
    initialized r' !! alice = Some l /\ heap r' !! l = Some tb /\
    taken <= capacity tb /\ 0 <= availableTokens tb <= capacity tb.
Proof.
  split; [apply NewPersisted_ok|]. split; [right; reflexivity|].
  apply (TakeAvailable_returns_within_bounds alice 7 (5 * second) ex_limiter).
  - apply NewPersisted_ok.
  - right. reflexivity.
Defined.

Lemma Available_returns_within_capacity_witness :
  limiter_ok ex_active (5 * second) /\
  (is_Some (initialized ex_active !! alice) \/ valid_config (defaultConfig ex_active) = true) /\
  exists a r' l tb,
    Available alice (5 * second) ex_active = Returns a r' /\
    initialized r' !! alice = Some l /\ heap r' !! l = Some tb /\
    0 <= a <= capacity tb /\ db r' = db ex_active /\ logged r' = logged ex_active.
Proof.
  split; [exact ex_active_ok|]. split; [right; reflexivity|].
  apply (Available_returns_within_capacity alice (5 * second) ex_active).
  - exact ex_active_ok.
  - right. reflexivity.
Defined.

Lemma Remove_returns_and_evicts_witness :
  limiter_ok ex_active (5 * second) /\
  exists res r',
    Remove alice (60 * second) (5 * second) ex_active = Returns res r' /\
    ((exists e, res = Some (ErrBlacklisting alice e) /\ r' = ex_active) \/
     (initialized r' = delete alice (initialized ex_active) /\
      (res = None \/ exists cap e, res = Some (ErrWriteCapacity cap alice e)))).
Proof.
  split; [exact ex_active_ok|].
  apply (Remove_returns_and_evicts alice (60 * second) (5 * second) ex_active).
  exact ex_active_ok.
Defined.

Lemma UpdateConfig_in_memory_only_witness :
  limiter_ok ex_active (5 * second) /\
  is_Some (initialized ex_active !! alice) /\ valid_config ex_small = true /\
  exists r', UpdateConfig alice ex_small (5 * second) ex_active = Returns None r'.
Proof.
  split; [exact ex_active_ok|].
  split; [exists 0%nat; vm_compute; reflexivity|].
  split; [reflexivity|].
  destruct (UpdateConfig_in_memory_only alice ex_small (5 * second) ex_active) as [_ Hret].
  - exact ex_active_ok.
  - apply Hret; [exists 0%nat; vm_compute; reflexivity | reflexivity].
Defined.

Lemma Remove_unregistered_witness :
  initialized ex_limiter !! bob = None /\
  Remove bob 0 (5 * second) ex_limiter = Returns None ex_limiter /\
  Remove bob (60 * second) (1000 * second) ex_limiter = Returns None ex_banned.
Proof.
  split; [vm_compute; reflexivity|].
  destruct (Remove_unregistered bob 0 (5 * second) ex_limiter) as [Hnoop _];
    [vm_compute; reflexivity|].
  destruct (Remove_unregistered bob (60 * second) (1000 * second) ex_limiter) as [_ Hban];
    [vm_compute; reflexivity|].
  split.
  - apply Hnoop. reflexivity.
  - rewrite Hban; [vm_compute; reflexivity | vm_compute; discriminate | reflexivity].
Defined.

Lemma Remove_blacklist_failure_witness :
  60 * second <> 0 /\
  faulty (db ex_active_readonly) OpPut
         (Key RateLimitBlacklist (prefix ex_active_readonly) alice) = true /\
  Remove alice (60 * second) (6 * second) ex_active_readonly
    = Returns (Some (ErrBlacklisting alice ErrIO)) ex_active_readonly.
Proof.
  split; [vm_compute; discriminate|]. split; [reflexivity|].
  apply (Remove_blacklist_failure_changes_nothing alice (60 * second) (6 * second)
           ex_active_readonly).
  - vm_compute; discriminate.
  - reflexivity.
Defined.

Lemma Remove_snapshot_failure_witness :
  let r := ex_active_readonly in
  let tb := mkBucket (5 * second) 10 1 second 3 0 in
  initialized r !! alice = Some 0%nat /\ heap r !! 0%nat = Some tb /\
  faulty (db r) OpPut (Key RateLimitCapacity (prefix r) alice) = true /\
  faulty (db r) OpGet (Key RateLimitCapacity (prefix r) alice) = false /\
  faulty (db r) OpGet (Key RateLimitBlacklist (prefix r) alice) = false /\
  data (db r) !! Key RateLimitBlacklist (prefix r) alice = None /\
  data (db r) !! Key RateLimitCapacity (prefix r) alice = None /\
  Create_loadConfig alice r = Returns (inr ex_config) r /\
  valid_config ex_config = true /\
  exists e r1,
    Remove alice 0 (6 * second) r = Returns (Some e) r1 /\
    kind_of e = PersistenceError /\
    initialized r1 !! alice = None /\ db r1 = db r /\
    forall t1, exists r2 r3,
      Create alice t1 r1 = Returns None r2 /\
      Available alice t1 r2 = Returns (int64 (Capacity ex_config)) r3.
Proof.
  intros r tb.
  split; [vm_compute; reflexivity|]. split; [vm_compute; reflexivity|].
  split; [reflexivity|]. split; [reflexivity|]. split; [reflexivity|].
  split; [vm_compute; reflexivity|]. split; [vm_compute; reflexivity|].
  split; [vm_compute; reflexivity|]. split; [reflexivity|].
  apply (Remove_snapshot_failure_resets_budget alice (6 * second) r 0%nat tb ex_config).
  - vm_compute; reflexivity.
  - vm_compute; reflexivity.
  - reflexivity.
  - reflexivity.
  - reflexivity.
  - vm_compute; reflexivity.
  - vm_compute; reflexivity.
  - vm_compute; reflexivity.
  - reflexivity.
Defined.

Lemma Create_error_registers_nothing_witness :
  Create alice (5 * second) ex_undecodable
    = Returns (Some (ErrDecodeConfig [Byte.x00])) ex_undecodable /\
  initialized ex_undecodable = initialized ex_undecodable /\
  heap ex_undecodable = heap ex_undecodable /\
  logged ex_undecodable = logged ex_undecodable /\
  (ErrDecodeConfig [Byte.x00] = ErrBlacklisted alice \/
   ErrDecodeConfig [Byte.x00]
     = ErrReadKey (Key RateLimitConfig (prefix ex_undecodable) alice) ErrIO \/
   exists val, ErrDecodeConfig [Byte.x00] = ErrDecodeConfig val /\
               rlp_DecodeBytes val = None).
Proof.
  split; [vm_compute; reflexivity|].
  apply (Create_error_registers_nothing alice (5 * second) ex_undecodable ex_undecodable
           (ErrDecodeConfig [Byte.x00])).
  vm_compute; reflexivity.
Defined.

(** alice, 3 tokens left, with the checkpoint of her 7 consumed tokens in
    the store: a second [Create] takes her last 3 tokens. *)
Lemma Create_registered_replays_snapshot_witness :
  let r := ex_active in
  let tb := mkBucket (5 * second) 10 1 second 3 0 in
  let val := PutUint64 7 ++ PutUint64 5 in
  Create_checkBlacklist alice (5 * second) r = Returns None r /\
  Create_loadConfig alice r = Returns (inr ex_config) r /\
  initialized r !! alice = Some 0%nat /\ heap r !! 0%nat = Some tb /\
  bucket_ok tb (5 * second) /\
  db_Get (db r) (Key RateLimitCapacity (prefix r) alice) = (val, None) /\
  length val = 16%nat /\ Uint64 (take 8 val) = Some 7 /\ 0 < 7 < 2 ^ 63 /\
  exists r' tb',
    Create alice (5 * second) r = Returns None r' /\
    initialized r' = initialized r /\ heap r' !! 0%nat = Some tb' /\
    capacity tb' = 10 /\ availableTokens tb' = 0.
Proof.
  intros r tb val.
  split; [vm_compute; reflexivity|]. split; [vm_compute; reflexivity|].
  split; [vm_compute; reflexivity|]. split; [vm_compute; reflexivity|].
  split; [vm_compute; repeat split; discriminate|].
  split; [vm_compute; reflexivity|]. split; [vm_compute; reflexivity|].
  split; [vm_compute; reflexivity|]. split; [vm_compute; repeat split; discriminate|].
  apply (Create_registered_replays_snapshot alice (5 * second) r r ex_config 0%nat tb val 7).
  - vm_compute; reflexivity.
  - vm_compute; reflexivity.
  - vm_compute; reflexivity.
  - vm_compute; reflexivity.
  - vm_compute; repeat split; discriminate.
  - vm_compute; reflexivity.
  - vm_compute; reflexivity.
  - vm_compute; reflexivity.
  - vm_compute; repeat split; discriminate.
Defined.

Lemma Create_without_snapshot_witness :
  Create_checkBlacklist alice (5 * second) ex_limiter = Returns None ex_limiter /\
  Create_loadConfig alice ex_limiter = Returns (inr ex_config) ex_limiter /\
  initialized ex_limiter !! alice = None /\ valid_config ex_config = true /\
  db_Get (db ex_limiter) (Key RateLimitCapacity (prefix ex_limiter) alice)
    = ([], Some ErrNotFound) /\
  exists r' r'',
    Create alice (5 * second) ex_limiter = Returns None r' /\
    db r' = db ex_limiter /\ logged r' = logged ex_limiter /\
    Available alice (5 * second) r' = Returns (int64 (Capacity ex_config)) r''.
Proof.
  split; [vm_compute; reflexivity|]. split; [vm_compute; reflexivity|].
  split; [vm_compute; reflexivity|]. split; [reflexivity|].
  split; [vm_compute; reflexivity|].
  apply (Create_without_snapshot_full_capacity alice (5 * second) ex_limiter ex_limiter
           ex_config []).
  - vm_compute; reflexivity.
  - vm_compute; reflexivity.
  - vm_compute; reflexivity.
  - reflexivity.
  - vm_compute; reflexivity.
Defined.

Lemma Create_short_blacklist_record_witness :
  let r := ex_short_blacklist in
  faulty (db r) OpGet (Key RateLimitBlacklist (prefix r) bob) = false /\
  data (db r) !! Key RateLimitBlacklist (prefix r) bob = Some [Byte.x01] /\
  (length [Byte.x01] < 8)%nat /\
  Create bob (5 * second) r = Panics IndexOutOfRange.
Proof.
  intros r.
  split; [reflexivity|]. split; [vm_compute; reflexivity|]. split; [simpl; lia|].
  apply (Create_short_blacklist_record_panics bob (5 * second) r [Byte.x01]).
  - reflexivity.
  - vm_compute; reflexivity.
  - simpl; lia.
Defined.

Lemma Available_twice_witness :
  let r1 := after (Available alice (6 * second)) ex_active in
  Available alice (6 * second) ex_active = Returns 4 r1 /\
  Available alice (6 * second) r1 = Returns 4 r1.
Proof.
  intros r1. split; [vm_compute; reflexivity|].
  apply (Available_twice alice (6 * second) ex_active r1 4).
  vm_compute; reflexivity.
Defined.

(** One token per microsecond: alice takes 7 of 10, the checkpoint is made
    five microseconds after the debit, and 8 tokens are available after the
    restart. *)
Lemma restart_round_trip_witness :
  let r := ex_fast in
  let cap := int64 (Capacity (defaultConfig r)) in
  let ticks := Z.quot (5000 - 0) (int64 (Interval (defaultConfig r)))
               - Z.quot (0 - 0) (int64 (Interval (defaultConfig r))) in
  let taken := Z.min 7 cap in
  let left := Z.min cap (cap - taken + ticks * int64 (Quantum (defaultConfig r))) in
  Inj (=) (=) (@kind_tag ex_imports) /\
  initialized r !! alice = None /\
  valid_config (defaultConfig r) = true /\
  faulty (db r) OpPut (Key RateLimitCapacity (prefix r) alice) = false /\
  faulty (db r) OpGet (Key RateLimitCapacity (prefix r) alice) = false /\
  faulty (db r) OpGet (Key RateLimitBlacklist (prefix r) alice) = false /\
  faulty (db r) OpGet (Key RateLimitConfig (prefix r) alice) = false /\
  data (db r) !! Key RateLimitBlacklist (prefix r) alice = None /\
  data (db r) !! Key RateLimitConfig (prefix r) alice = None /\
  0 <= 7 /\
  0 <= 5000 /\
  taken = 7 /\ left = 8 /\
  (ticks = 0 -> left = cap - taken) /\
  exists r1,
    TakeAvailable_clocked alice 7 0 0 5000 5000 r = Returns taken r1 /\
    forall t, exists r2 r3,
      Create alice t (NewPersisted (db r1) (defaultConfig r) (prefix r)) = Returns None r2 /\
      Available alice t r2 = Returns left r3.
Proof.
  intros r cap ticks taken left.
  split; [exact ex_kind_tag_inj|].
  split; [vm_compute; reflexivity|]. split; [reflexivity|].
  split; [reflexivity|]. split; [reflexivity|]. split; [reflexivity|].
  split; [reflexivity|].
  split; [vm_compute; reflexivity|]. split; [vm_compute; reflexivity|].
  split; [lia|]. split; [lia|].
  split; [vm_compute; reflexivity|]. split; [vm_compute; reflexivity|].
  apply (restart_round_trip alice 7 0 0 5000 5000 r).
  - exact ex_kind_tag_inj.
  - vm_compute; reflexivity.
  - reflexivity.
  - reflexivity.
  - reflexivity.
  - reflexivity.
  - reflexivity.
  - vm_compute; reflexivity.
  - vm_compute; reflexivity.
  - lia.
  - lia.
Defined.

Lemma ban_does_not_stop_TakeAvailable_witness :
  Inj (=) (=) (@kind_tag ex_imports) /\
  60 * second <> 0 /\
  Remove bob (60 * second) (1000 * second) ex_limiter = Returns None ex_banned /\
  faulty (db ex_limiter) OpGet (Key RateLimitBlacklist (prefix ex_limiter) bob) = false /\
  valid_config (defaultConfig ex_limiter) = true /\
  0 <= Unix (1030 * second) <= Unix (1000 * second + 60 * second) /\
  Unix (1000 * second + 60 * second) < 2 ^ 64 /\
  0 <= 4 /\
  Create bob (1030 * second) ex_banned = Returns (Some (ErrBlacklisted bob)) ex_banned /\
  exists r2,
    TakeAvailable bob 4 (1030 * second) ex_banned =
      Returns (Z.min 4 (int64 (Capacity (defaultConfig ex_limiter)))) r2.
Proof.
  split; [exact ex_kind_tag_inj|].
  split; [vm_compute; discriminate|].
  split; [vm_compute; reflexivity|].
  split; [reflexivity|]. split; [reflexivity|].
  split; [vm_compute; repeat split; discriminate|].
  split; [vm_compute; reflexivity|].
  split; [lia|].
  apply (ban_does_not_stop_TakeAvailable bob (60 * second) (1000 * second) (1030 * second) 4
           ex_limiter ex_banned).
  - exact ex_kind_tag_inj.
  - vm_compute; discriminate.
  - vm_compute; reflexivity.
  - reflexivity.
  - reflexivity.
  - vm_compute; repeat split; discriminate.
  - vm_compute; reflexivity.
  - lia.
Defined.

Lemma Create_keeps_existing_bucket_witness :
  let tb := mkBucket (5 * second) 10 1 second 3 0 in
  let r' := after (Create alice (6 * second)) ex_active in
  initialized ex_active !! alice = Some 0%nat /\ heap ex_active !! 0%nat = Some tb /\
  Create alice (6 * second) ex_active = Returns None r' /\
  initialized r' !! alice = Some 0%nat /\
  exists tb', heap r' !! 0%nat = Some tb' /\ capacity tb' = capacity tb /\
              quantum tb' = quantum tb /\ fillInterval tb' = fillInterval tb.
Proof.
  intros tb r'.
  split; [vm_compute; reflexivity|]. split; [vm_compute; reflexivity|].
  split; [vm_compute; reflexivity|].
  apply (Create_keeps_existing_bucket alice (6 * second) ex_active r' None 0%nat tb).
  - vm_compute; reflexivity.
  - vm_compute; reflexivity.
  - vm_compute; reflexivity.
Defined.

(** alice is moved to a capacity of 5, removed and created again: her
    bucket has the default capacity of 10. *)
Lemma reconfiguration_not_durable_witness :
  let r := ex_active in
  let r1 := after (UpdateConfig alice ex_small (5 * second)) r in
  let r2 := after (Remove alice 0 (6 * second)) r1 in
  let r3 := after (Create alice (7 * second)) r2 in
  Inj (=) (=) (@kind_tag ex_imports) /\
  limiter_ok r (5 * second) /\
  faulty (db r) OpGet (Key RateLimitBlacklist (prefix r) alice) = false /\
  faulty (db r) OpGet (Key RateLimitConfig (prefix r) alice) = false /\
  data (db r) !! Key RateLimitBlacklist (prefix r) alice = None /\
  data (db r) !! Key RateLimitConfig (prefix r) alice = None /\
  UpdateConfig alice ex_small (5 * second) r = Returns None r1 /\
  Remove alice 0 (6 * second) r1 = Returns None r2 /\
  Create alice (7 * second) r2 = Returns None r3 /\
  exists l tb,
    initialized r3 !! alice = Some l /\ heap r3 !! l = Some tb /\
    capacity tb = int64 (Capacity (defaultConfig r)).
Proof.
  intros r r1 r2 r3.
  split; [exact ex_kind_tag_inj|]. split; [exact ex_active_ok|].
  split; [reflexivity|]. split; [reflexivity|].
  split; [vm_compute; reflexivity|]. split; [vm_compute; reflexivity|].
  split; [vm_compute; reflexivity|]. split; [vm_compute; reflexivity|].
  split; [vm_compute; reflexivity|].
  apply (reconfiguration_not_durable alice ex_small (5 * second) (6 * second) (7 * second)
           r r1 r2 r3 None).
  - exact ex_kind_tag_inj.
  - exact ex_active_ok.
  - reflexivity.
  - reflexivity.
  - vm_compute; reflexivity.
  - vm_compute; reflexivity.
  - vm_compute; reflexivity.
  - vm_compute; reflexivity.
  - vm_compute; reflexivity.
Defined.
